(** * Unified FGD database: tag algebra, import merge and export

    A shallow embedding of [unify_fgd.py] (the tag vocabulary, [expand_tags],
    [add_tag], [get_appliesto], [action_import], [action_export]) and of the
    [comp_adv_output] transform, followed by the properties established
    about them.

    Conventions of the embedding:
    - a Python [str] is a [string]; tags and classnames are ASCII,
      [str.upper] is the ASCII upper-casing [upper] and [str.casefold] the
      ASCII lower-casing [casefold];
    - a [frozenset] of tags is a [gset string];
    - a [dict] is an association list with unique keys in insertion order
      (module [PyDict]), because the merge depends on iteration order;
    - code that can raise returns a [result]. *)

From Stdlib Require Import Ascii.
From Stdlib Require PrimFloat Uint63.
From stdpp Require Import gmap strings pretty list fin_maps sets sorting.

Open Scope string_scope.
Open Scope list_scope.
Open Scope stdpp_scope.

(** ** Python strings *)

Module PyStr.

(** [c.upper()] for an ASCII character. *)
Definition upper_ascii (c : ascii) : ascii :=
  let n := nat_of_ascii c in
  if (97 <=? n)%nat && (n <=? 122)%nat then ascii_of_nat (n - 32) else c.

(** [s.upper()]. *)
Fixpoint upper (s : string) : string :=
  match s with
  | EmptyString => EmptyString
  | String c s' => String (upper_ascii c) (upper s')
  end.

(** [c.casefold()] for an ASCII character. *)
Definition casefold_ascii (c : ascii) : ascii :=
  let n := nat_of_ascii c in
  if (65 <=? n)%nat && (n <=? 90)%nat then ascii_of_nat (n + 32) else c.

(** [s.casefold()]. *)
Fixpoint casefold (s : string) : string :=
  match s with
  | EmptyString => EmptyString
  | String c s' => String (casefold_ascii c) (casefold s')
  end.

(** [s.startswith(('!', '-'))]. *)
Definition starts_with_neg (s : string) : bool :=
  match s with
  | String c _ => bool_decide (c = "!"%char) || bool_decide (c = "-"%char)
  | EmptyString => false
  end.

(** [s[1:]]. *)
Definition tail (s : string) : string :=
  match s with
  | String _ s' => s'
  | EmptyString => EmptyString
  end.

(** [l.index(x)]: position of the first occurrence, [None] for the
    [ValueError]. *)
Fixpoint index_of (x : string) (l : list string) : option nat :=
  match l with
  | [] => None
  | y :: l' => if decide (x = y) then Some 0 else S <$> index_of x l'
  end.

(** [sub in s] for strings. *)
Fixpoint contains (sub s : string) : bool :=
  String.prefix sub s
  || match s with
     | EmptyString => false
     | String _ s' => contains sub s'
     end.

(** Insertion of [x] into a sorted list without duplicates. *)
Fixpoint insert_sorted (x : string) (l : list string) : list string :=
  match l with
  | [] => [x]
  | y :: l' =>
      if decide (x = y) then l
      else if String.ltb x y then x :: l
      else y :: insert_sorted x l'
  end.

(** [sorted(set(l))]: the distinct members of [l] in increasing order. *)
Definition sorted_set (l : list string) : list string :=
  foldr insert_sorted [] l.

(** [a < b] on strings. *)
Definition str_lt (a b : string) : Prop := String.ltb a b = true.

End PyStr.

(** ** Python dictionaries

    A [dict] keeps its keys in insertion order: assigning to a key that is
    present replaces the value in place, assigning to a new key appends. *)

Module PyDict.
Section Dict.
Context {K V : Type} `{EqDecision K}.

(** [d[k]], [None] for the [KeyError]. *)
Fixpoint get (k : K) (d : list (K * V)) : option V :=
  match d with
  | [] => None
  | (k', v) :: d' => if decide (k = k') then Some v else get k d'
  end.

(** [d[k] = v]. *)
Fixpoint set_item (k : K) (v : V) (d : list (K * V)) : list (K * V) :=
  match d with
  | [] => [(k, v)]
  | (k', v') :: d' =>
      if decide (k = k') then (k', v) :: d' else (k', v') :: set_item k v d'
  end.

(** [del d[k]]. *)
Definition del_item (k : K) (d : list (K * V)) : list (K * V) :=
  filter (λ kv, kv.1 ≠ k) d.

(** [{k: v for k, v in items}]: later items overwrite earlier ones. *)
Definition comprehension (items : list (K * V)) : list (K * V) :=
  foldl (λ d kv, set_item kv.1 kv.2 d) [] items.

End Dict.
End PyDict.

Abbreviation Dict K V := (list (K * V)) (only parsing).
Abbreviation TagSet := (gset string) (only parsing).

Import PyStr.

(** ** The tag vocabulary *)

Definition GAMES : list (string * string) :=
  [ ("HLS", "Half-Life: Source");
    ("DODS", "Day of Defeat: Source");
    ("CSS", "Counter-Strike: Source");
    ("HL2", "Half-Life 2");
    ("EP1", "Half-Life 2 Episode 1");
    ("EP2", "Half-Life 2 Episode 2");
    ("TF2", "Team Fortress 2");
    ("P1", "Portal");
    ("L4D", "Left 4 Dead");
    ("L4D2", "Left 4 Dead 2");
    ("ASW", "Alien Swam");
    ("P2", "Portal 2");
    ("CSGO", "Counter-Strike Global Offensive");
    ("SFM", "Source Filmmaker");
    ("DOTA2", "Dota 2");
    ("PUNT", "PUNT");
    ("P2DES", "Portal 2: Desolation") ].

Definition GAME_ORDER : list string := fst <$> GAMES.

Definition FEATURES : gmap string (gset string) :=
  list_to_map
    [ ("L4D", {[ "INSTANCING" ]});
      ("TF2", {[ "INSTANCING"; "PROP_SCALING" ]});
      ("ASW", {[ "INSTANCING"; "VSCRIPT" ]});
      ("P2", {[ "INSTANCING"; "VSCRIPT" ]});
      ("CSGO", {[ "INSTANCING"; "PROP_SCALING"; "VSCRIPT" ]});
      ("P2DES", {[ "INSTANCING"; "PROP_SCALING"; "VSCRIPT" ]}) ].

Definition ALL_FEATURES : gset string :=
  map_fold (λ _ t acc, acc ∪ set_map upper t) ∅ FEATURES.

Definition TAGS_SPECIAL : gset string := {[ "ENGINE"; "SRCTOOLS" ]}.

Definition ALL_TAGS : gset string :=
  list_to_set GAME_ORDER ∪ ALL_FEATURES ∪ TAGS_SPECIAL
  ∪ list_to_set ((λ t, "SINCE_" +:+ upper t) <$> GAME_ORDER)
  ∪ list_to_set ((λ t, "UNTIL_" +:+ upper t) <$> GAME_ORDER).

(** ** The tag algebra *)

(** What one iteration of the loop of [expand_tags] adds for [tag]: the
    feature bundle of [tag.upper()] (nothing on [KeyError]) and, when
    [tag.upper()] is a release at position [pos], the [SINCE_] tags of
    [GAME_ORDER[:pos+1]] and the [UNTIL_] tags of [GAME_ORDER[pos+1:]]
    (nothing on [ValueError]). *)
Definition expand_one (tag : string) : gset string :=
  default ∅ (FEATURES !! upper tag)
  ∪ match index_of (upper tag) GAME_ORDER with
    | None => ∅
    | Some pos =>
        list_to_set ((λ t, "SINCE_" +:+ t) <$> take (S pos) GAME_ORDER)
        ∪ list_to_set ((λ t, "UNTIL_" +:+ t) <$> drop (S pos) GAME_ORDER)
    end.

Definition expand_tags (tags : gset string) : gset string :=
  set_fold (λ tag exp_tags, exp_tags ∪ expand_one tag) tags tags.

(** Every tag that the loop of [expand_tags] can add. *)
Definition generated_tags : gset string :=
  ALL_FEATURES
  ∪ list_to_set ((λ t, "SINCE_" +:+ t) <$> GAME_ORDER)
  ∪ list_to_set ((λ t, "UNTIL_" +:+ t) <$> GAME_ORDER).

Definition add_tag (tags : gset string) (new_tag : string) : gset string :=
  if starts_with_neg new_tag then
    {[ new_tag ]} ∪ (tags ∖ {[ tail new_tag ]})
  else
    let up := upper new_tag in
    let tag_set := tags ∖ {[ "!" +:+ up ]} ∖ {[ "-" +:+ up ]} in
    if decide ("+" +:+ up ∈ tag_set) then tag_set else {[ up ]} ∪ tag_set.

(** ** The data model of a definition database

    The classes below belong to the [srctools.fgd] package; they are modelled
    with the attributes [unify_fgd.py] reads and writes. *)

Inductive EntityTypes := BASE | POINT | BRUSH | ROPES | TRACK | FILTER | NPC.

Inductive HelperTypes :=
  | EXT_APPLIES_TO
  | EXT_ORDERBY
  | HELPER (name : string).

Inductive ValueTypes :=
  | CHOICES
  | STRING
  | INT
  | VALUE_TYPE (name : string).

(** A [KeyValues] or an [IODef] object. Both have [type] and [desc]; only a
    [KeyValues] has [val_list], for [CHOICES] the list of
    [(value, name, tags)] triples. [rest] stands for the attributes the code
    never looks at (name, display name, default, ...); they take part in
    [==]. *)
Inductive Value :=
  | KeyValues (type : ValueTypes) (desc : string)
      (val_list : option (list (string * string * TagSet))) (rest : string)
  | IODef (type : ValueTypes) (desc : string) (rest : string).

Definition value_type (v : Value) : ValueTypes :=
  match v with
  | KeyValues t _ _ _ | IODef t _ _ => t
  end.

Definition value_desc (v : Value) : string :=
  match v with
  | KeyValues _ d _ _ | IODef _ d _ => d
  end.

#[global] Instance EntityTypes_eq_dec : EqDecision EntityTypes.
Proof. solve_decision. Defined.
#[global] Instance HelperTypes_eq_dec : EqDecision HelperTypes.
Proof. solve_decision. Defined.
#[global] Instance ValueTypes_eq_dec : EqDecision ValueTypes.
Proof. solve_decision. Defined.
#[global] Instance Value_eq_dec : EqDecision Value.
Proof. solve_decision. Defined.

Abbreviation Helper := (HelperTypes * list string)%type (only parsing).

(** An [EntityDef]. [V] is what a tag map holds for a definition: the
    [Value] itself where values are only compared (import), a reference into
    a store of [Value] objects where they are mutated in place (export). *)
Record EntityDef (V : Type) := {
  classname : string;
  type : EntityTypes;
  desc : string;
  bases : list string;
  helpers : list Helper;
  keyvalues : Dict string (Dict TagSet V);
  inputs : Dict string (Dict TagSet V);
  outputs : Dict string (Dict TagSet V);
}.
Arguments classname {V}.
Arguments type {V}.
Arguments desc {V}.
Arguments bases {V}.
Arguments helpers {V}.
Arguments keyvalues {V}.
Arguments inputs {V}.
Arguments outputs {V}.

Definition with_helpers {V} (hs : list Helper) (ent : EntityDef V) : EntityDef V :=
  {| classname := classname ent; type := type ent; desc := desc ent;
     bases := bases ent; helpers := hs; keyvalues := keyvalues ent;
     inputs := inputs ent; outputs := outputs ent |}.

(** An [FGD]: its [entities] dictionary, keyed by classname. *)
Abbreviation FGD V := (Dict string (EntityDef V)) (only parsing).

(** Exceptions that escape. *)
Inductive exception :=
  | ValueError (msg : string)
  | IndexError
  | TypeError.

Inductive result (A : Type) :=
  | Ok (a : A)
  | Raise (e : exception).
Arguments Ok {A}.
Arguments Raise {A}.

(** ** Storage paths and the AppliesTo helper *)

Definition ent_path {V} (ent : EntityDef V) : string :=
  if decide (classname ent = "worldspawn") then "worldspawn.fgd"
  else
    let folder :=
      match type ent with
      | BASE => "bases"
      | BRUSH => "brush"
      | _ => "point/"
      end in
    folder +:+ "/" +:+ classname ent +:+ ".fgd".

Definition is_applies_to (h : Helper) : bool :=
  bool_decide (h.1 = EXT_APPLIES_TO).

(** Index of the first [AppliesTo] helper. *)
Fixpoint first_applies_to (hs : list Helper) : option nat :=
  match hs with
  | [] => None
  | h :: hs' => if is_applies_to h then Some 0 else S <$> first_applies_to hs'
  end.

(** [l.insert(pos, x)]. *)
Definition list_insert_at {A} (pos : nat) (x : A) (l : list A) : list A :=
  take pos l ++ x :: drop pos l.

(** [get_appliesto] leaves exactly one [AppliesTo] helper in [ent.helpers]
    and returns its argument list. The returned list is the very list held by
    the helper at index [pos]: a caller that appends to it changes the
    helper, which [set_appliesto] spells out. *)
Definition get_appliesto {V} (ent : EntityDef V) : EntityDef V * nat * list string :=
  let pos := default 0 (first_applies_to (helpers ent)) in
  let applies_to := concat (snd <$> filter (λ h, is_applies_to h = true) (helpers ent)) in
  let arg_list := sorted_set applies_to in
  let others := filter (λ h, is_applies_to h = false) (helpers ent) in
  (with_helpers (list_insert_at pos (EXT_APPLIES_TO, arg_list) others) ent,
   pos, arg_list).

Definition set_appliesto {V} (pos : nat) (args : list string) (ent : EntityDef V) : EntityDef V :=
  with_helpers (<[pos := (EXT_APPLIES_TO, args)]> (helpers ent)) ent.

(** ** The entities of a file

    An [FGD] of [srctools] finds a classname without regard to case, and
    writes its entities ordered by classname. *)

(** [fgd[cls]]: the entity listed under [cls], the classnames compared
    folded; [None] for the [KeyError]. *)
Fixpoint fgd_getitem {V} (cls : string) (fgd : FGD V) : option (EntityDef V) :=
  match fgd with
  | [] => None
  | (c, ent) :: rest =>
      if decide (casefold c = casefold cls) then Some ent else fgd_getitem cls rest
  end.

(** The entity that [fgd[cls]] returns is an object of the [FGD]: what the
    merge changes of it is changed where it is listed. *)
Fixpoint fgd_update {V} (cls : string) (ent' : EntityDef V) (fgd : FGD V) : FGD V :=
  match fgd with
  | [] => []
  | (c, ent) :: rest =>
      if decide (casefold c = casefold cls) then (c, ent') :: rest
      else (c, ent) :: fgd_update cls ent' rest
  end.

(** [batch.sort(key=lambda ent: ent.classname)] of [FGD.export]: the
    entities are written ordered by classname, and the file parsed again
    lists them in that order. *)
Fixpoint insert_by_classname {V} (item : string * EntityDef V) (l : FGD V) : FGD V :=
  match l with
  | [] => [item]
  | y :: l' =>
      if String.ltb (classname y.2) (classname item.2)
      then y :: insert_by_classname item l'
      else item :: l
  end.

Definition sorted_ents {V} (fgd : FGD V) : FGD V :=
  foldr insert_by_classname [] fgd.

(** [a] is listed before [b] in a file ordered by classname: the classname
    of [b] is not below that of [a]. *)
Definition classname_le {V} (a b : string * EntityDef V) : Prop :=
  String.ltb (classname b.2) (classname a.2) = false.

(** ** Import *)

Section ImportMerge.

Variable engine_tag : string.

Definition merge_desc (old new : string) : string :=
  if contains new old then old else old +:+ "|||" +:+ new.

(** [for x in new: if x not in old: old.append(x)]. *)
Definition append_missing {A} `{EqDecision A} (old new : list A) : list A :=
  foldl (λ acc x, if decide (x ∈ acc) then acc else acc ++ [x]) old new.

(** One round of the loop over [tag_map.items()] of the new entity: the
    first old alternative with an equal value is retagged when the new
    [tag] is not empty and kept as it is otherwise; without an equal value
    the new one is added. *)
Definition merge_alternative (orig_tag_map : Dict TagSet Value)
    (item : TagSet * Value) : Dict TagSet Value :=
  let '(tag, new_value) := item in
  match List.find (λ old, bool_decide (old.2 = new_value)) orig_tag_map with
  | Some (old_tag, _) =>
      if decide (tag ≠ ∅) then
        PyDict.set_item (add_tag old_tag engine_tag) new_value
          (PyDict.del_item old_tag orig_tag_map)
      else orig_tag_map
  | None => PyDict.set_item (add_tag tag engine_tag) new_value orig_tag_map
  end.

Definition retag (new_tag : string) (tag_map : Dict TagSet Value) : Dict TagSet Value :=
  PyDict.comprehension ((λ kv, (add_tag kv.1 new_tag, kv.2)) <$> tag_map).

(** One round of the loop over [new_map.items()]. *)
Definition merge_name (cur_map : Dict string (Dict TagSet Value))
    (item : string * Dict TagSet Value) : Dict string (Dict TagSet Value) :=
  let '(name, tag_map) := item in
  match PyDict.get name cur_map with
  | None => PyDict.set_item name (retag engine_tag tag_map) cur_map
  | Some orig_tag_map =>
      PyDict.set_item name (foldl merge_alternative orig_tag_map tag_map) cur_map
  end.

(** The loop over [cur_map.items()] that negates the engine tag on the
    names the new entity does not have. *)
Definition negate_removed (new_names : list string)
    (cur_map : Dict string (Dict TagSet Value)) : Dict string (Dict TagSet Value) :=
  (λ kv, if decide (kv.1 ∈ new_names) then kv
         else (kv.1, retag ("!" +:+ engine_tag) kv.2)) <$> cur_map.

Definition merge_category (cur_map new_map : Dict string (Dict TagSet Value))
    : Dict string (Dict TagSet Value) :=
  negate_removed new_map.*1 (foldl merge_name cur_map new_map).

(** The body of the [if path.exists()] branch after the lookup of [ent]. *)
Definition merge_entity (ent new_ent : EntityDef Value) : EntityDef Value :=
  {| classname := classname ent;
     type := type ent;
     desc := merge_desc (desc ent) (desc new_ent);
     bases := append_missing (bases ent) (bases new_ent);
     helpers := append_missing (helpers ent) (helpers new_ent);
     keyvalues := merge_category (keyvalues ent) (keyvalues new_ent);
     inputs := merge_category (inputs ent) (inputs new_ent);
     outputs := merge_category (outputs ent) (outputs new_ent) |}.

(** [applies_to = get_appliesto(ent)] and the append of the engine tag. *)
Definition mark_engine (ent : EntityDef Value) : EntityDef Value :=
  let '(ent', pos, applies_to) := get_appliesto ent in
  if decide (engine_tag ∈ applies_to) then ent'
  else set_appliesto pos (applies_to ++ [engine_tag]) ent'.

(** The database directory: the parsed content of the file at each path,
    every entity listed under its classname. Writing a file and parsing it
    again is taken to give back the entities written, in the order written
    (the serializer is not part of this program). An existing file is
    written from [old_fgd], so ordered by classname; a new file holds the
    one entity. *)
Definition import_entity (fs : gmap string (FGD Value)) (new_ent : EntityDef Value)
    : result (gmap string (FGD Value)) :=
  let path := ent_path new_ent in
  match fs !! path with
  | Some old_fgd =>
      match fgd_getitem (classname new_ent) old_fgd with
      | None => Raise (ValueError "Classname not present in FGD!")
      | Some ent =>
          let ent' := mark_engine (merge_entity ent new_ent) in
          Ok (<[path := sorted_ents (fgd_update (classname new_ent) ent' old_fgd)]> fs)
      end
  | None =>
      Ok (<[path := [(classname new_ent, mark_engine new_ent)]]> fs)
  end.

(** The loop over the entities of the imported files. An exception ends
    the loop; the files written so far stay written. *)
Fixpoint import_entities (fs : gmap string (FGD Value)) (new_ents : list (EntityDef Value))
    : gmap string (FGD Value) * option exception :=
  match new_ents with
  | [] => (fs, None)
  | new_ent :: rest =>
      match import_entity fs new_ent with
      | Ok fs' => import_entities fs' rest
      | Raise e => (fs, Some e)
      end
  end.

Definition action_import (fs : gmap string (FGD Value)) (new_fgd : FGD Value)
    : gmap string (FGD Value) * option exception :=
  import_entities fs new_fgd.*2.

End ImportMerge.

(** ** Export

    On export the [KeyValues] and [IODef] objects are changed in place, and
    one object can be reached from several tag maps once the bases are
    collapsed. A tag map therefore holds references, and the objects live in
    a store. [M] is the monad of the export: the store and the printed
    diagnostics as state, an escaping exception as failure. *)

Inductive message :=
  | MultipleTypes (cls key : string) (types : list ValueTypes)
  | UsesChoices (cls key : string).

Record ExportState := {
  objects : nat → Value;
  printed : list message;
}.

Definition M (A : Type) : Type := ExportState → result (A * ExportState).

#[global] Instance M_ret : MRet M := λ A a st, Ok (a, st).
#[global] Instance M_bind : MBind M := λ A B f m st,
  match m st with
  | Ok (a, st') => f a st'
  | Raise e => Raise e
  end.

Definition raise {A} (e : exception) : M A := λ _, Raise e.

Definition print (msg : message) : M unit := λ st,
  Ok ((), {| objects := objects st; printed := printed st ++ [msg] |}).

Definition deref (ref : nat) : M Value := λ st, Ok (objects st ref, st).

Definition assign (ref : nat) (v : Value) : M unit := λ st,
  Ok ((), {| objects := λ r, if decide (r = ref) then v else objects st r;
             printed := printed st |}).

(** [sorted(l, key=key)]: a stable sort. *)
Fixpoint insert_by_key {A} (key : A → nat) (x : A) (l : list A) : list A :=
  match l with
  | [] => [x]
  | y :: l' => if decide (key x ≤ key y)%nat then x :: l else y :: insert_by_key key x l'
  end.

Definition sorted_by_key {A} (key : A → nat) (l : list A) : list A :=
  foldr (insert_by_key key) [] l.

Definition set_desc (d : string) (v : Value) : Value :=
  match v with
  | KeyValues t _ vl rest => KeyValues t d vl rest
  | IODef t _ rest => IODef t d rest
  end.

Section EngineExport.

(** Whether the builtin [int(s)] returns (it raises [ValueError] otherwise). *)
Variable int_parses : string → bool.

(** [FGD.collapse_bases] of [srctools]. *)
Variable collapse_bases : FGD nat → FGD nat.

(** The choice of the value to keep for one key: the only alternative, or
    the one tagged exactly [{ENGINE}], or the first of those with the
    fewest tags. *)
Definition select_value (cls key : string) (tag_map : Dict TagSet nat) : M nat :=
  if decide (length tag_map = 1) then
    match tag_map with
    | (_, value) :: _ => mret value
    | [] => raise IndexError
    end
  else
    match PyDict.get {[ "ENGINE" ]} tag_map with
    | Some value =>
        v ← deref value;
        if decide (value_type v = CHOICES) then
          raise (ValueError (cls +:+ "." +:+ key +:+ ": Engine tags cannot be CHOICES!"))
        else mret value
    | None =>
        vals ← mapM deref tag_map.*2;
        let types := remove_dups (value_type <$> vals) in
        _ ← (if decide (2 < length types)%nat then print (MultipleTypes cls key types)
             else mret ());
        match sorted_by_key (λ t : TagSet * nat, size t.1) tag_map with
        | (_, value) :: _ => mret value
        | [] => raise IndexError
        end
    end.

(** The conversion of a [CHOICES] value: an integer when every choice
    parses as one, a string otherwise. *)
Definition convert_choices (cls key : string) (value : nat) : M unit :=
  v ← deref value;
  if decide (value_type v = CHOICES) then
    _ ← print (UsesChoices cls key);
    match v with
    | KeyValues _ d (Some choices) rest =>
        let t := if forallb (λ c : string * string * TagSet, int_parses c.1.1) choices
                 then INT else STRING in
        assign value (KeyValues t d None rest)
    | KeyValues _ _ None _ => raise TypeError
    | IODef _ _ _ => mret ()
    end
  else mret ().

(** The body of the loop over [category.items()]; it returns the new entry
    of the category. *)
Definition engine_key (cls : string) (item : string * Dict TagSet nat)
    : M (string * Dict TagSet nat) :=
  let '(key, tag_map) := item in
  value ← select_value cls key tag_map;
  _ ← convert_choices cls key value;
  v ← deref value;
  _ ← assign value (set_desc "" v);
  mret (key, [(∅, value)]).

Definition engine_entity (ent : EntityDef nat) : M (EntityDef nat) :=
  let hs := filter (λ helper : Helper,
                      helper.1 ≠ EXT_APPLIES_TO ∧ helper.1 ≠ EXT_ORDERBY) (helpers ent) in
  ins ← mapM (engine_key (classname ent)) (inputs ent);
  outs ← mapM (engine_key (classname ent)) (outputs ent);
  kvs ← mapM (engine_key (classname ent)) (keyvalues ent);
  mret {| classname := classname ent; type := type ent; desc := desc ent;
          bases := bases ent; helpers := hs;
          keyvalues := kvs; inputs := ins; outputs := outs |}.

Definition engine_item (item : string * EntityDef nat) : M (string * EntityDef nat) :=
  ent ← engine_entity item.2; mret (item.1, ent).

(** The final removal of the base entities. *)
Definition remove_bases {V} (entities : FGD V) : FGD V :=
  filter (λ item, type item.2 ≠ BASE) entities.

(** [action_export] with [engine_mode] set, from the loaded database on. *)
Definition action_export_engine (fgd : FGD nat) : M (FGD nat) :=
  entities ← mapM engine_item (collapse_bases fgd);
  mret (remove_bases entities).

(** Positions of the loops. [loop_reaches body l st0 x st]: the loop over
    [l] started in [st0] gets to the element [x] in the state [st], every
    earlier round having returned. *)
Definition loop_reaches {A B} (body : A → M B) (l : list A) (st0 : ExportState)
    (x : A) (st : ExportState) : Prop :=
  ∃ pre post done, l = pre ++ x :: post ∧ mapM body pre st0 = Ok (done, st).

(** The loops over the three categories of [ent], in the order
    [[ent.inputs, ent.outputs, ent.keyvalues]]. *)
Definition entity_reaches (ent : EntityDef nat) (st0 : ExportState)
    (item : string * Dict TagSet nat) (st : ExportState) : Prop :=
  let body := engine_key (classname ent) in
  loop_reaches body (inputs ent) st0 item st
  ∨ (∃ ins st1, mapM body (inputs ent) st0 = Ok (ins, st1)
       ∧ (loop_reaches body (outputs ent) st1 item st
          ∨ ∃ outs st2, mapM body (outputs ent) st1 = Ok (outs, st2)
              ∧ loop_reaches body (keyvalues ent) st2 item st)).

(** The engine-mode export of [fgd] started in [st0] gets to the key
    [item] of an entity of classname [cls] in the state [st]. *)
Definition export_reaches (fgd : FGD nat) (st0 : ExportState) (cls : string)
    (item : string * Dict TagSet nat) (st : ExportState) : Prop :=
  ∃ c ent st1,
    loop_reaches engine_item (collapse_bases fgd) st0 (c, ent) st1
    ∧ classname ent = cls
    ∧ entity_reaches ent st1 item st.

End EngineExport.

Section TaggedExport.

Context {V : Type}.

(** [match_tags], [EntityDef.strip_tags] and [FGD.collapse_bases] of
    [srctools]. The bases of an entity are the entity objects themselves, so
    [collapse_bases] also sees the entities that were culled, in the state
    the loop left them in: its first argument. *)
Variable match_tags : TagSet → list string → bool.
Variable strip_tags : TagSet → EntityDef V → EntityDef V.
Variable collapse_bases : list (EntityDef V) → FGD V → FGD V.

Definition strip_applies_to (ent : EntityDef V) : EntityDef V :=
  with_helpers (filter (λ helper : Helper, helper.1 ≠ EXT_APPLIES_TO) (helpers ent)) ent.

(** What the culling loop leaves of the object [ent]. *)
Definition cull_entity (tags : TagSet) (ent : EntityDef V) : EntityDef V :=
  let '(ent', _, applies_to) := get_appliesto ent in
  if match_tags tags applies_to then strip_tags tags (strip_applies_to ent')
  else ent'.

Definition cull_step (tags : TagSet) (entities : FGD V) (ent : EntityDef V) : FGD V :=
  if match_tags tags (get_appliesto ent).2
  then PyDict.set_item (classname ent) (cull_entity tags ent) entities
  else entities.

(** [action_export] with [engine_mode] unset, from the loaded database on. *)
Definition action_export_tagged (tags : TagSet) (fgd : FGD V) : FGD V :=
  let tags := expand_tags tags in
  let ents := fgd.*2 in
  let entities := foldl (cull_step tags) [] ents in
  remove_bases (collapse_bases (cull_entity tags <$> ents) entities).

End TaggedExport.

(** The alternatives stored for keyvalue [key] of entity [cls] in the file
    at [path]. *)
Definition stored_keyvalue (fs : gmap string (FGD Value)) (path cls key : string)
    : option (Dict TagSet Value) :=
  old_fgd ← fs !! path;
  ent ← PyDict.get cls old_fgd;
  PyDict.get key (keyvalues ent).

(** The helpers stored for entity [cls] in the file at [path]. *)
Definition stored_helpers (fs : gmap string (FGD Value)) (path cls : string)
    : option (list Helper) :=
  old_fgd ← fs !! path;
  ent ← PyDict.get cls old_fgd;
  Some (helpers ent).

(** What it would mean for an import to go on after the error of one
    classname: the database ends as if the failing entity [x] had not been
    in the imported files. *)
Definition import_skips_failing_classname : Prop :=
  ∀ engine_tag fs pre x post fs1 old_fgd,
    import_entities engine_tag fs pre = (fs1, None) →
    fs1 !! ent_path x = Some old_fgd →
    fgd_getitem (classname x) old_fgd = None →
    (import_entities engine_tag fs (pre ++ x :: post)).1
    = (import_entities engine_tag fs (pre ++ post)).1.

(** ** Sample databases and fragments *)

Module Sample.

Definition V1 : Value := KeyValues STRING "The first value." None "k;Key;one".
Definition V2 : Value := KeyValues STRING "The first value." None "k;Key;two".

Definition point_entity (cls : string) (hs : list Helper)
    (kvs : Dict string (Dict TagSet Value)) : EntityDef Value :=
  {| classname := cls; type := POINT; desc := "An entity."; bases := [];
     helpers := hs; keyvalues := kvs; inputs := []; outputs := [] |}.

(** Entity [X] of the database: keyvalue [k] has one alternative, tagged
    [{HL2}], with value [V1]. *)
Definition fs0 : gmap string (FGD Value) :=
  {[ "point//X.fgd" :=
       [("X", point_entity "X" [(EXT_APPLIES_TO, ["HL2"])] [("k", [({[ "HL2" ]}, V1)])])] ]}.

(** Untagged fragments declaring [X]: with [k = V1], with [k = V2],
    without [k]. *)
Definition F1 : FGD Value := [("X", point_entity "X" [] [("k", [(∅, V1)])])].
Definition F2 : FGD Value := [("X", point_entity "X" [] [("k", [(∅, V2)])])].
Definition F0 : FGD Value := [("X", point_entity "X" [] [])].

(** A fragment with two classnames; the database file of the first one
    exists and holds another classname only. *)
Definition fs_other : gmap string (FGD Value) :=
  {[ "point//A.fgd" := [("A_old", point_entity "A_old" [] [])] ]}.
Definition F_two : FGD Value :=
  [("A", point_entity "A" [] []); ("B", point_entity "B" [] [])].

(** A fragment with three classnames, the second one being the one whose
    file holds another classname only. *)
Definition F_three : FGD Value :=
  [("B", point_entity "B" [] []); ("A", point_entity "A" [] []);
   ("C", point_entity "C" [] [])].

(** A file that lists [x] before [W], under the path of [X]. *)
Definition fs_unsorted : gmap string (FGD Value) :=
  {[ "point//X.fgd" :=
       [("x", point_entity "x" [] [("k", [({[ "HL2" ]}, V1)])]);
        ("W", point_entity "W" [] [])] ]}.

(** Modelled from the spec: [match_tags] of [srctools] (not among the
    sources), after "positive tags in the candidate must all be present in
    the requested closure; a requested tag negated in the candidate excludes
    it". *)
Definition match_tags (requested : TagSet) (candidate : list string) : bool :=
  forallb (λ tag, if starts_with_neg tag
                  then bool_decide (tail (upper tag) ∉ requested)
                  else bool_decide (upper tag ∈ requested)) candidate.

(** Modelled from the spec: [EntityDef.strip_tags] of [srctools] (not among
    the sources), after "for every TaggedAlternatives in every category ...
    narrow to the ... Definition whose TagSet is selected by the requested
    tags". *)
Definition strip_category {V} (tags : TagSet)
    (category : Dict string (Dict TagSet V)) : Dict string (Dict TagSet V) :=
  (λ item, (item.1, filter (λ alt, match_tags tags (elements alt.1) = true) item.2))
    <$> category.

Definition strip_tags {V} (tags : TagSet) (ent : EntityDef V) : EntityDef V :=
  {| classname := classname ent; type := type ent; desc := desc ent;
     bases := bases ent; helpers := helpers ent;
     keyvalues := strip_category tags (keyvalues ent);
     inputs := strip_category tags (inputs ent);
     outputs := strip_category tags (outputs ent) |}.

(** Modelled from the spec: [FGD.collapse_bases] of [srctools] (not among
    the sources), after "inline BASE-kind ancestors' category entries into
    descendants (first-wins on name collision, closest ancestor wins over
    farther ones)". *)
Definition inherit_category {V} (own base : Dict string (Dict TagSet V))
    : Dict string (Dict TagSet V) :=
  foldl (λ acc item, if decide (item.1 ∈ acc.*1) then acc else acc ++ [item]) own base.

Definition inherit {V} (ent base : EntityDef V) : EntityDef V :=
  {| classname := classname ent; type := type ent; desc := desc ent;
     bases := bases ent; helpers := helpers ent;
     keyvalues := inherit_category (keyvalues ent) (keyvalues base);
     inputs := inherit_category (inputs ent) (inputs base);
     outputs := inherit_category (outputs ent) (outputs base) |}.

Fixpoint inline_bases {V} (fuel : nat) (objs : list (EntityDef V))
    (ent : EntityDef V) : EntityDef V :=
  match fuel with
  | 0 => ent
  | S fuel' =>
      foldl (λ acc name,
               match List.find (λ obj, bool_decide (classname obj = name)) objs with
               | Some base => inherit acc (inline_bases fuel' objs base)
               | None => acc
               end) ent (bases ent)
  end.

Definition collapse_bases {V} (objs : list (EntityDef V)) (entities : FGD V) : FGD V :=
  (λ item, (item.1, inline_bases (length objs) objs item.2)) <$> entities.

(** A database of three entities: the base [Targetname], the point entity
    [prop_scalable] of [TF2] that inherits from it, and the point entity
    [env_portal] of [P2]. *)
Definition Targetname : EntityDef Value :=
  {| classname := "Targetname"; type := BASE; desc := ""; bases := [];
     helpers := [];
     keyvalues := [("targetname", [(∅, KeyValues STRING "The name." None "Name")])];
     inputs := []; outputs := [] |}.

Definition prop_scalable : EntityDef Value :=
  {| classname := "prop_scalable"; type := POINT; desc := "A prop.";
     bases := ["Targetname"];
     helpers := [(HELPER "studioprop", []); (EXT_APPLIES_TO, ["TF2"])];
     keyvalues := [("k", [({[ "HL2" ]}, V1)])]; inputs := []; outputs := [] |}.

Definition env_portal : EntityDef Value :=
  {| classname := "env_portal"; type := POINT; desc := "A portal.";
     bases := []; helpers := [(EXT_APPLIES_TO, ["P2"])];
     keyvalues := []; inputs := []; outputs := [] |}.

(** A collapsed database for the engine export. Object 0 is a choice
    list tagged [{ENGINE}], object 1 an integer tagged [{ENGINE}], object 2
    a string. Entity [logic_a] has a key with the alternatives 1 and 2 and
    then a key with the alternatives 2 and 0. *)
Definition engine_objects (ref : nat) : Value :=
  match ref with
  | 0 => KeyValues CHOICES "A mode." (Some [("0", "Off", ∅); ("1", "On", ∅)]) "Mode"
  | 1 => KeyValues INT "A count." None "Count"
  | _ => KeyValues STRING "A label." None "Label"
  end.

Definition engine_state : ExportState :=
  {| objects := engine_objects; printed := [] |}.

Definition logic_a : EntityDef nat :=
  {| classname := "logic_a"; type := POINT; desc := ""; bases := [];
     helpers := [(EXT_ORDERBY, ["count"]); (HELPER "iconsprite", [])];
     keyvalues := [("count", [({[ "P2" ]}, 2); ({[ "ENGINE" ]}, 1)]);
                   ("mode", [(∅, 2); ({[ "ENGINE" ]}, 0)])];
     inputs := []; outputs := [] |}.

Definition all_digits (s : string) : bool :=
  forallb (λ c : ascii, (48 <=? nat_of_ascii c)%nat && (nat_of_ascii c <=? 57)%nat)
    (String.list_ascii_of_string s).

Definition loaded : FGD Value :=
  [("Targetname", Targetname); ("prop_scalable", prop_scalable);
   ("env_portal", env_portal)].

End Sample.

(** ** The [comp_adv_output] transform

    The map is a store of entities by identity; an [Entity] has its
    keyvalues (read with [''] for a missing key) and its outputs. *)

Module AdvOutput.

Record Output := {
  output : string;
  target : string;
  input : string;
  params : string;
  delay : PrimFloat.float;
  times : Z;
}.

Record Entity := {
  keys : gmap string string;
  outputs : list Output;
}.

(** [ent[key]]. *)
Definition getitem (ent : Entity) (key : string) : string :=
  default "" (keys ent !! key).

(** [found_ent.add_out(out)]. *)
Definition add_out (out : Output) (ent : Entity) : Entity :=
  {| keys := keys ent; outputs := outputs ent ++ [out] |}.

(** The entries of the logger, each with the arguments of its message:
    'No target entity for conv_adv_output at ({})!',
    'conv_adv_output at ({}) has a negative delay!',
    'Failed to format comp_adv_output at ({}) using format ... and
    parameters {!r}', 'No entities found named ... for comp_adv_output at
    ({})!'. *)
Inductive log_entry :=
  | warning_no_target (origin : string)
  | warning_negative_delay (origin : string)
  | exception_format (origin parameter : string) (param_args : list string)
  | warning_no_entities (target origin : string).

Record Context := {
  vmf : gmap nat Entity;
  log : list log_entry;
}.

(** [SimpleFormatter.get_value]: 1-based positional arguments only; [None]
    stands for the [KeyError] and for the [IndexError] of [args[key - 1]]. *)
Definition get_value (key : Z + string) (args : list string) : option string :=
  match key with
  | inl n => if decide (0 < n)%Z then args !! Z.to_nat (n - 1) else None
  | inr _ => None
  end.

(** [a or b] on strings. *)
Definition str_or (a b : string) : string :=
  if decide (a = "") then b else a.

(** The three keys read by round [ind] of the parameter loop. *)
Definition param_keys (ind : nat) : list string :=
  [ "params_pos" +:+ pretty ind; "params_local" +:+ pretty ind;
    "params_global" +:+ pretty ind ].

(** The loop over [itertools.count(1)], from [ind] on. It ends at the first
    index without a value; [fuel] bounds the number of rounds, [None] means
    the bound was too small. *)
Fixpoint collect_params (fuel : nat) (adv_out : Entity) (ind : nat)
    : option (list string) :=
  match fuel with
  | 0 => None
  | S fuel' =>
      let val := str_or (getitem adv_out ("params_pos" +:+ pretty ind))
                   (str_or (getitem adv_out ("params_local" +:+ pretty ind))
                      (getitem adv_out ("params_global" +:+ pretty ind))) in
      if decide (val = "") then Some []
      else (val ::.) <$> collect_params fuel' adv_out (S ind)
  end.

Section Transform.

(** Collaborators: [check_control_enabled] of [hammeraddons.bsp_transform],
    [conv_int] and [conv_float] of [srctools], [string.Formatter.vformat]
    (given the [get_value] it calls; [None] when it raises) and
    [VMF.search] (the identities of the entities found). *)
Variable check_control_enabled : Entity → bool.
Variable conv_int : string → Z → Z.
Variable conv_float : string → PrimFloat.float.
Variable vformat : (Z + string → list string → option string) → string → list string → option string.
Variable search : gmap nat Entity → string → list nat.

(** [delay] after the clamp, and whether the warning is logged. *)
Definition clamped_delay (adv_out : Entity) : PrimFloat.float * bool :=
  let delay := PrimFloat.add (conv_float (getitem adv_out "delay"))
                   (conv_float (getitem adv_out "delay2")) in
  if PrimFloat.ltb delay PrimFloat.zero then (PrimFloat.zero, true) else (delay, false).

(** One round of the loop over the [comp_adv_output] entities. [None] only
    if the loop collecting the parameters ran out of fuel. *)
Definition process (ctx : Context) (item : nat * Entity) : option Context :=
  let '(adv_id, adv_out) := item in
  let ctx := {| vmf := delete adv_id (vmf ctx); log := log ctx |} in
  if negb (check_control_enabled adv_out) then Some ctx
  else
    let output_name := getitem adv_out "out_name" in
    let input_name := getitem adv_out "inp_name" in
    let target_name := str_or (getitem adv_out "target_local")
                              (getitem adv_out "target_global") in
    let times := conv_int (getitem adv_out "times") (-1) in
    if decide (target_name = "") then
      Some {| vmf := vmf ctx;
              log := log ctx ++ [warning_no_target (getitem adv_out "origin")] |}
    else
      let target_instname := getitem adv_out "target_instname" in
      let target_name :=
        if decide (target_instname = "") then target_name
        else target_name +:+ "-" +:+ target_instname in
      let '(delay, negative) := clamped_delay adv_out in
      let log1 :=
        if negative
        then log ctx ++ [warning_negative_delay (getitem adv_out "origin")]
        else log ctx in
      param_args ← collect_params (S (size (keys adv_out))) adv_out 1;
      let parameter := getitem adv_out "params_fmt" in
      let formatted :=
        if decide (parameter = "") then Some parameter
        else vformat get_value parameter param_args in
      match formatted with
      | None =>
          Some {| vmf := vmf ctx;
                  log := log1 ++ [exception_format (getitem adv_out "origin")
                                    parameter param_args] |}
      | Some parameter =>
          let out := {| output := output_name; target := target_name;
                        input := input_name; params := parameter;
                        delay := delay; times := times |} in
          let found := search (vmf ctx) (getitem adv_out "out_ent") in
          Some {| vmf := foldl (λ m found_ent, alter (add_out out) found_ent m)
                           (vmf ctx) found;
                  log := if decide (found = []) then
                           log1 ++ [warning_no_entities (getitem adv_out "target")
                                      (getitem adv_out "origin")]
                         else log1 |}
      end.

(** [ctx.vmf.by_class[cls]], as a list. *)
Definition by_class (cls : string) (m : gmap nat Entity) : list (nat * Entity) :=
  filter (λ item, getitem item.2 "classname" = cls) (map_to_list m).

Definition advanced_output (ctx : Context) : option Context :=
  foldl (λ acc item, acc ≫= λ ctx, process ctx item) (Some ctx)
    (by_class "comp_adv_output" (vmf ctx)).

End Transform.

(** The outcome of a round with a negative delay: the round returns, the
    warning is in the log, and every entity found has one more output, the
    last one, which is the configured output with a delay of [0.0]: the
    output [out_name] to the target (with the instance name appended after
    a dash when there is one), the input [inp_name], the parameter (empty
    without a format, else the format applied to the collected parameters)
    and [times] as count. *)
Definition negative_delay_outcome (conv_int : string → Z → Z)
    (vformat : (Z + string → list string → option string) → string → list string
               → option string)
    (search : gmap nat Entity → string → list nat)
    (ctx : Context) (adv_id : nat) (adv_out : Entity) (result : option Context) : Prop :=
  ∃ ctx',
    result = Some ctx'
    ∧ warning_negative_delay (getitem adv_out "origin") ∈ log ctx'
    ∧ ∀ found_ent ent,
        found_ent ∈ search (delete adv_id (vmf ctx)) (getitem adv_out "out_ent") →
        delete adv_id (vmf ctx) !! found_ent = Some ent →
        ∃ ent' param_args parameter,
          vmf ctx' !! found_ent = Some ent'
          ∧ (length (outputs ent) < length (outputs ent'))%nat
          ∧ collect_params (S (size (keys adv_out))) adv_out 1 = Some param_args
          ∧ (getitem adv_out "params_fmt" = "" ∧ parameter = ""
             ∨ getitem adv_out "params_fmt" ≠ ""
               ∧ vformat get_value (getitem adv_out "params_fmt") param_args
                 = Some parameter)
          ∧ last (outputs ent')
            = Some {| output := getitem adv_out "out_name";
                      target :=
                        (let name := str_or (getitem adv_out "target_local")
                                            (getitem adv_out "target_global") in
                         if decide (getitem adv_out "target_instname" = "") then name
                         else name +:+ "-" +:+ getitem adv_out "target_instname");
                      input := getitem adv_out "inp_name";
                      params := parameter;
                      delay := PrimFloat.zero;
                      times := conv_int (getitem adv_out "times") (-1)%Z |}.

(** What it would mean that a negative delay always ends in the warning
    and the output, for whatever the collaborators compute, on every
    [comp_adv_output] with a target name and a negative sum of delays. *)
Definition negative_delay_always_adds_output : Prop :=
  ∀ check_control_enabled conv_int conv_float vformat search ctx adv_id adv_out,
    str_or (getitem adv_out "target_local") (getitem adv_out "target_global") ≠ "" →
    PrimFloat.ltb (PrimFloat.add (conv_float (getitem adv_out "delay"))
                                 (conv_float (getitem adv_out "delay2")))
      PrimFloat.zero = true →
    negative_delay_outcome conv_int vformat search ctx adv_id adv_out
      (process check_control_enabled conv_int conv_float vformat search ctx
         (adv_id, adv_out)).

(** *** A sample map and sample collaborators *)

(** A decimal integer with an optional sign. *)
Fixpoint parse_digits (acc : Z) (s : string) : option Z :=
  match s with
  | EmptyString => Some acc
  | String c s' =>
      let n := nat_of_ascii c in
      if (48 <=? n)%nat && (n <=? 57)%nat
      then parse_digits (10 * acc + Z.of_nat (n - 48)) s'
      else None
  end.

Definition parse_Z (s : string) : option Z :=
  match s with
  | EmptyString => None
  | String "-" (String c s') => Z.opp <$> parse_digits 0 (String c s')
  | _ => parse_digits 0 s
  end.

Definition sample_conv_int (s : string) (default : Z) : Z :=
  match parse_Z s with Some z => z | None => default end.

(** Whole numbers only. *)
Definition sample_conv_float (s : string) : PrimFloat.float :=
  match parse_Z s with
  | Some z =>
      let magnitude := PrimFloat.of_uint63 (Uint63.of_Z (Z.abs z)) in
      if decide (z < 0)%Z then PrimFloat.opp magnitude else magnitude
  | None => PrimFloat.zero
  end.

(** Format strings made of text and of fields [{key}]. *)
Fixpoint sample_vformat_go (get_value : Z + string → list string → option string)
    (args : list string) (field : option string) (s : string) : option string :=
  match s, field with
  | EmptyString, None => Some EmptyString
  | EmptyString, Some _ => None
  | String "{" s', None => sample_vformat_go get_value args (Some EmptyString) s'
  | String "}" s', None => None
  | String c s', None => String c <$> sample_vformat_go get_value args None s'
  | String "}" s', Some name =>
      let key := match parse_Z name with Some n => inl n | None => inr name end in
      val ← get_value key args;
      rest ← sample_vformat_go get_value args None s';
      Some (val +:+ rest)
  | String c s', Some name =>
      sample_vformat_go get_value args (Some (name +:+ String c EmptyString)) s'
  end.

Definition sample_vformat (get_value : Z + string → list string → option string)
    (fmt : string) (args : list string) : option string :=
  sample_vformat_go get_value args None fmt.

(** The entities of the given [targetname]. *)
Definition sample_search (m : gmap nat Entity) (name : string) : list nat :=
  (filter (λ item : nat * Entity, getitem item.2 "targetname" = name) (map_to_list m)).*1.

Definition sample_adv_out : Entity :=
  {| keys := list_to_map
       [("classname", "comp_adv_output"); ("origin", "0 0 64");
        ("out_ent", "relay"); ("out_name", "OnTrigger");
        ("target_global", "door"); ("inp_name", "SetSpeed");
        ("delay", "-2"); ("delay2", "1");
        ("params_fmt", "{1}"); ("params_pos1", "150")];
     outputs := [] |}.

(** The same entity with a format that asks for a second parameter. *)
Definition sample_adv_out_unformattable : Entity :=
  {| keys := <["params_fmt" := "{1} {2}"]> (keys sample_adv_out);
     outputs := [] |}.

Definition sample_relay : Entity :=
  {| keys := list_to_map [("classname", "logic_relay"); ("targetname", "relay")];
     outputs := [] |}.

Definition sample_ctx : Context :=
  {| vmf := list_to_map [(0, sample_adv_out); (1, sample_relay)]; log := [] |}.

End AdvOutput.

(** ** More samples *)

Module MoreSamples.

(** A collapsed database with a base and a point entity whose keys can all
    be resolved. *)
Definition logic_b : EntityDef nat :=
  {| classname := "logic_b"; type := POINT; desc := "A counter."; bases := [];
     helpers := [(EXT_APPLIES_TO, ["P2"]); (EXT_ORDERBY, ["count"]);
                 (HELPER "iconsprite", ["editor/logic_b.vmt"])];
     keyvalues := [("count", [({[ "P2" ]}, 2); ({[ "ENGINE" ]}, 1)]);
                   ("mode", [({[ "P2" ]}, 0)])];
     inputs := [("SetCount", [(∅, 2)])]; outputs := [] |}.

Definition base_b : EntityDef nat :=
  {| classname := "BaseB"; type := BASE; desc := ""; bases := [];
     helpers := []; keyvalues := [("label", [(∅, 2)])];
     inputs := []; outputs := [] |}.

Definition collapsed : FGD nat := [("BaseB", base_b); ("logic_b", logic_b)].

(** A [comp_adv_output] with a delay of three seconds, a target in an
    instance and no parameter, and a map with it and the relay. *)
Definition adv_out_plain : AdvOutput.Entity :=
  {| AdvOutput.keys := list_to_map
       [("classname", "comp_adv_output"); ("origin", "0 0 64");
        ("out_ent", "relay"); ("out_name", "OnTrigger");
        ("target_local", "door"); ("target_instname", "lift");
        ("inp_name", "Open"); ("delay", "1"); ("delay2", "2"); ("times", "1")];
     AdvOutput.outputs := [] |}.

Definition ctx_plain : AdvOutput.Context :=
  {| AdvOutput.vmf := list_to_map [(0, adv_out_plain); (1, AdvOutput.sample_relay)];
     AdvOutput.log := [] |}.

End MoreSamples.

(** * Properties *)

Section TagAlgebra.

Implicit Types (tags : gset string) (tag x : string).

Lemma elem_of_expand_fold (init tags : gset string) x :
  x ∈ set_fold (λ tag exp_tags, exp_tags ∪ expand_one tag) init tags
  ↔ x ∈ init ∨ ∃ tag, tag ∈ tags ∧ x ∈ expand_one tag.
Proof.
  apply (set_fold_ind_L
    (λ acc X, x ∈ acc ↔ x ∈ init ∨ ∃ tag, tag ∈ X ∧ x ∈ expand_one tag)).
  - split; [by left | intros [? | (tag & Htag & _)]; [done |]].
    by apply not_elem_of_empty in Htag.
  - intros tag X acc Hfresh IH. rewrite elem_of_union, IH. split.
    + intros [[? | (t & ? & ?)] | ?]; [by left | right; exists t | right; exists tag];
        (split; [apply elem_of_union; by (left + right); try apply elem_of_singleton | done]).
    + intros [? | (t & [->%elem_of_singleton | ?]%elem_of_union & ?)];
        [by left; left | by right | left; right; by exists t].
Qed.

Lemma elem_of_expand_tags tags x :
  x ∈ expand_tags tags ↔ x ∈ tags ∨ ∃ tag, tag ∈ tags ∧ x ∈ expand_one tag.
Proof. apply elem_of_expand_fold. Qed.

Lemma upper_game_order : Forall (λ g, upper g = g) GAME_ORDER.
Proof. apply (bool_decide_unpack _). vm_compute. reflexivity. Qed.

Lemma features_generated :
  map_Forall (λ _ bundle, bundle ⊆ generated_tags) FEATURES.
Proof. apply (bool_decide_unpack _). vm_compute. reflexivity. Qed.

Lemma generated_inert :
  set_Forall (λ x, expand_one x = ∅) generated_tags.
Proof. apply (bool_decide_unpack _). vm_compute. reflexivity. Qed.

Lemma expand_one_generated tag : expand_one tag ⊆ generated_tags.
Proof.
  unfold expand_one. apply union_least.
  - destruct (FEATURES !! upper tag) as [bundle|] eqn:Hf; simpl.
    + exact (features_generated _ _ Hf).
    + apply empty_subseteq.
  - destruct (index_of (upper tag) GAME_ORDER) as [pos|]; [|apply empty_subseteq].
    unfold generated_tags. intros x [Hx | Hx]%elem_of_union;
      apply elem_of_list_to_set, list_elem_of_fmap in Hx as (g & -> & Hg).
    + apply elem_of_union_l, elem_of_union_r, elem_of_list_to_set, list_elem_of_fmap.
      exists g. split; [done|]. eapply subseteq_take, Hg.
    + apply elem_of_union_r, elem_of_list_to_set, list_elem_of_fmap.
      exists g. split; [done|]. eapply subseteq_drop, Hg.
Qed.

Lemma expand_one_inert tag x : x ∈ expand_one tag → expand_one x = ∅.
Proof. intros Hx. apply generated_inert. by apply (expand_one_generated tag). Qed.

Lemma index_of_lookup (l : list string) (i : nat) x :
  NoDup l → l !! i = Some x → index_of x l = Some i.
Proof.
  intros Hnd. revert i. induction Hnd as [|y l Hy Hnd IH]; intros i Hi; [done|].
  destruct i as [|i]; simpl in *.
  - injection Hi as ->. by rewrite decide_True.
  - rewrite decide_False, (IH _ Hi); [done|].
    intros ->. by apply Hy, list_elem_of_lookup_2 with i.
Qed.

Lemma game_order_nodup : NoDup GAME_ORDER.
Proof. apply (bool_decide_unpack _). vm_compute. reflexivity. Qed.

Lemma neg_prefix_ne (c : ascii) (x : string) : x ≠ String c x.
Proof. induction x as [|d x IH]; [done|]. intros [= -> Hx]. by apply IH. Qed.

(** C8. Tag expansion is idempotent: expanding an expanded tag set adds
    nothing, [expand_tags (expand_tags tags) = expand_tags tags]. *)
Theorem expand_tags_idempotent tags :
  expand_tags (expand_tags tags) = expand_tags tags.
Proof.
  apply set_eq. intros x. rewrite (elem_of_expand_tags (expand_tags tags)).
  split; [|by left].
  intros [Hx | (tag & Htag & Hx)]; [done|].
  apply elem_of_expand_tags in Htag as [Htag | (tag0 & Htag0 & Hgen)].
  - apply elem_of_expand_tags. right. by exists tag.
  - rewrite (expand_one_inert _ _ Hgen) in Hx. by apply not_elem_of_empty in Hx.
Qed.

(** C7. Expanding a single release tag [R] at position [pos] of the
    chronological order yields [SINCE_r] for every release [r] at or before
    [R], [UNTIL_r] for every release [r] strictly after [R], and every
    feature of the bundle of [R] when it has one. *)
Theorem expand_tags_single_release (R : string) (pos : nat) :
  GAME_ORDER !! pos = Some R →
  (∀ r, r ∈ take (S pos) GAME_ORDER → "SINCE_" +:+ r ∈ expand_tags {[ R ]})
  ∧ (∀ r, r ∈ drop (S pos) GAME_ORDER → "UNTIL_" +:+ r ∈ expand_tags {[ R ]})
  ∧ (∀ bundle, FEATURES !! R = Some bundle → bundle ⊆ expand_tags {[ R ]}).
Proof.
  intros Hpos.
  assert (Hup : upper R = R).
  { eapply (proj1 (Forall_forall _ _) upper_game_order), list_elem_of_lookup_2, Hpos. }
  assert (Hidx : index_of R GAME_ORDER = Some pos).
  { by apply index_of_lookup; [apply game_order_nodup|]. }
  unfold expand_tags. rewrite set_fold_singleton.
  unfold expand_one. rewrite Hup, Hidx.
  split; [|split].
  - intros r Hr. apply elem_of_union_r, elem_of_union_r, elem_of_union_l.
    apply elem_of_list_to_set, list_elem_of_fmap. by exists r.
  - intros r Hr. apply elem_of_union_r, elem_of_union_r, elem_of_union_r.
    apply elem_of_list_to_set, list_elem_of_fmap. by exists r.
  - intros bundle Hb x Hx. apply elem_of_union_r, elem_of_union_l.
    by rewrite Hb.
Qed.

Lemma expand_tags_single_release_witness :
  Forall (λ tag, tag ∈ expand_tags {[ "TF2" ]})
    [ "INSTANCING"; "PROP_SCALING";
      "SINCE_HLS"; "SINCE_DODS"; "SINCE_CSS"; "SINCE_HL2"; "SINCE_EP1";
      "SINCE_EP2"; "SINCE_TF2";
      "UNTIL_P1"; "UNTIL_L4D"; "UNTIL_L4D2"; "UNTIL_ASW"; "UNTIL_P2";
      "UNTIL_CSGO"; "UNTIL_SFM"; "UNTIL_DOTA2"; "UNTIL_PUNT"; "UNTIL_P2DES" ].
Proof.
  destruct (expand_tags_single_release "TF2" 6 eq_refl) as (Hsince & Huntil & Hbundle).
  pose proof (Hbundle {[ "INSTANCING"; "PROP_SCALING" ]} eq_refl) as Hfeatures.
  repeat apply Forall_cons_2; [| | | | | | | | | | | | | | | | | | | apply Forall_nil_2].
  - apply Hfeatures, elem_of_union_l, elem_of_singleton. reflexivity.
  - apply Hfeatures, elem_of_union_r, elem_of_singleton. reflexivity.
  - apply (Hsince "HLS"). repeat constructor.
  - apply (Hsince "DODS"). repeat constructor.
  - apply (Hsince "CSS"). repeat constructor.
  - apply (Hsince "HL2"). repeat constructor.
  - apply (Hsince "EP1"). repeat constructor.
  - apply (Hsince "EP2"). repeat constructor.
  - apply (Hsince "TF2"). repeat constructor.
  - apply (Huntil "P1"). repeat constructor.
  - apply (Huntil "L4D"). repeat constructor.
  - apply (Huntil "L4D2"). repeat constructor.
  - apply (Huntil "ASW"). repeat constructor.
  - apply (Huntil "P2"). repeat constructor.
  - apply (Huntil "CSGO"). repeat constructor.
  - apply (Huntil "SFM"). repeat constructor.
  - apply (Huntil "DOTA2"). repeat constructor.
  - apply (Huntil "PUNT"). repeat constructor.
  - apply (Huntil "P2DES"). repeat constructor.
Defined.

(** C9. Toggling the negated tag ['!' + X] into any tag set leaves the
    literal member ['!' + X] in the result and the bare token [X] out. *)
Theorem add_tag_negated tags (X : string) :
  "!" +:+ X ∈ add_tag tags ("!" +:+ X) ∧ X ∉ add_tag tags ("!" +:+ X).
Proof.
  change ("!" +:+ X) with (String "!" X). unfold add_tag. simpl.
  split.
  - apply elem_of_union_l. by apply elem_of_singleton.
  - intros [Hx | Hx]%elem_of_union.
    + apply elem_of_singleton in Hx. by apply neg_prefix_ne in Hx.
    + apply elem_of_difference in Hx as [_ Hx]. apply Hx. by apply elem_of_singleton.
Qed.

End TagAlgebra.

Section AppliesToFacts.

(** [sorted_set] is [sorted(set(l))]: it has the members of [l], each once,
    in strictly increasing order, whatever the order of [l]. *)

Lemma ascii_compare_N (a b : ascii) :
  Ascii.compare a b = N.compare (N_of_ascii a) (N_of_ascii b).
Proof. reflexivity. Qed.

Lemma str_lt_trans a b c : str_lt a b → str_lt b c → str_lt a c.
Proof.
  unfold str_lt, String.ltb. revert b c.
  induction a as [|x a IH]; intros [|y b] [|z c]; simpl; try done.
  rewrite !ascii_compare_N.
  destruct (N.compare_spec (N_of_ascii x) (N_of_ascii y)) as [Hxy | Hxy | Hxy];
    destruct (N.compare_spec (N_of_ascii y) (N_of_ascii z)) as [Hyz | Hyz | Hyz];
    destruct (N.compare_spec (N_of_ascii x) (N_of_ascii z)) as [Hxz | Hxz | Hxz];
    try done; try lia.
  apply IH.
Qed.

Lemma str_lt_total a b : a ≠ b → String.ltb a b = false → str_lt b a.
Proof.
  unfold str_lt, String.ltb. intros Hne. rewrite (String.compare_antisym b a).
  destruct (String.compare a b) eqn:Hcmp; simpl; try done.
  by apply String.compare_eq_iff in Hcmp.
Qed.

Lemma elem_of_insert_sorted x y l : y ∈ insert_sorted x l ↔ y = x ∨ y ∈ l.
Proof.
  induction l as [|z l IH]; simpl.
  - by rewrite list_elem_of_singleton, elem_of_nil; tauto.
  - destruct (decide (x = z)) as [->|Hne].
    + rewrite elem_of_cons. tauto.
    + destruct (String.ltb x z); rewrite !elem_of_cons; [tauto|].
      rewrite IH. tauto.
Qed.

Lemma elem_of_sorted_set x l : x ∈ sorted_set l ↔ x ∈ l.
Proof.
  unfold sorted_set. induction l as [|y l IH]; simpl; [done|].
  by rewrite elem_of_insert_sorted, elem_of_cons, IH.
Qed.

Lemma insert_sorted_sorted x l :
  StronglySorted str_lt l → StronglySorted str_lt (insert_sorted x l).
Proof.
  induction 1 as [|y l Hsorted IH Hall]; simpl; [repeat constructor|].
  destruct (decide (x = y)) as [->|Hne]; [by constructor|].
  destruct (String.ltb x y) eqn:Hlt.
  - constructor; [by constructor|]. constructor; [done|].
    eapply Forall_impl; [done|]. intros z Hz. by eapply str_lt_trans.
  - constructor; [done|]. apply Forall_forall. intros z Hz.
    apply elem_of_insert_sorted in Hz as [-> | Hz].
    + by apply str_lt_total.
    + by apply (proj1 (Forall_forall _ _) Hall).
Qed.

Lemma sorted_set_sorted l : StronglySorted str_lt (sorted_set l).
Proof.
  unfold sorted_set. induction l as [|x l IH]; simpl; [constructor|].
  by apply insert_sorted_sorted.
Qed.

(** The one [AppliesTo] helper that [get_appliesto] leaves sits at the
    index it returns, with the list it returns as arguments. *)
Lemma list_insert_at_first_applies_to (hs : list Helper) (x : Helper) :
  list_insert_at (default 0 (first_applies_to hs)) x
    (filter (λ h, is_applies_to h = false) hs)
  !! default 0 (first_applies_to hs) = Some x.
Proof.
  induction hs as [|h hs IH]; simpl; [done|].
  destruct (is_applies_to h) eqn:Hh; simpl.
  - done.
  - rewrite filter_cons_True by done.
    destruct (first_applies_to hs) as [pos|]; simpl in *; [exact IH | done].
Qed.

Lemma get_appliesto_helper {V} (ent : EntityDef V) :
  helpers (get_appliesto ent).1.1 !! (get_appliesto ent).1.2
  = Some (EXT_APPLIES_TO, (get_appliesto ent).2).
Proof. unfold get_appliesto. simpl. apply list_insert_at_first_applies_to. Qed.

Lemma str_lt_irrefl a : ¬ str_lt a a.
Proof.
  unfold str_lt, String.ltb. induction a as [|x a IH]; simpl; [done|].
  by rewrite ascii_compare_N, N.compare_refl.
Qed.

Lemma filter_applies_to_insert (hs : list Helper) (x : Helper) pos :
  is_applies_to x = true →
  filter (λ h, is_applies_to h = true)
    (list_insert_at pos x (filter (λ h, is_applies_to h = false) hs)) = [x].
Proof.
  intros Hx. unfold list_insert_at.
  assert (Hnone : ∀ l : list Helper,
            l ⊆ filter (λ h, is_applies_to h = false) hs →
            filter (λ h, is_applies_to h = true) l = []).
  { induction l as [|h l IH]; intros Hsub; [done|].
    assert (is_applies_to h = false) as Hh.
    { assert (h ∈ filter (λ h, is_applies_to h = false) hs) as Hin
        by (apply Hsub; left).
      by apply list_elem_of_filter in Hin as [? _]. }
    rewrite filter_cons_False by (rewrite Hh; done).
    apply IH. intros y Hy. apply Hsub. by right. }
  rewrite filter_app, filter_cons_True by done.
  rewrite !Hnone; [done | apply subseteq_drop | apply subseteq_take].
Qed.

Lemma set_inserted_applies_to (hs : list Helper) (x y : Helper) :
  <[default 0 (first_applies_to hs) := y]>
    (list_insert_at (default 0 (first_applies_to hs)) x
       (filter (λ h, is_applies_to h = false) hs))
  = list_insert_at (default 0 (first_applies_to hs)) y
      (filter (λ h, is_applies_to h = false) hs).
Proof.
  induction hs as [|h hs IH]; simpl; [done|].
  destruct (is_applies_to h) eqn:Hh; simpl; [done|].
  rewrite filter_cons_True by done.
  destruct (first_applies_to hs) as [pos|]; simpl in *; [|done].
  unfold list_insert_at in *. simpl. by rewrite IH.
Qed.

(** The arguments of the [AppliesTo] helper after [mark_engine]: the list
    of [get_appliesto], with the engine tag appended when it is new. *)
Lemma mark_engine_applies_to E (ent : EntityDef Value) :
  filter (λ h, is_applies_to h = true) (helpers (mark_engine E ent))
  = [(EXT_APPLIES_TO,
      if decide (E ∈ (get_appliesto ent).2) then (get_appliesto ent).2
      else (get_appliesto ent).2 ++ [E])].
Proof.
  unfold mark_engine, get_appliesto. simpl.
  destruct (decide _); simpl.
  - by apply filter_applies_to_insert.
  - rewrite set_inserted_applies_to. by apply filter_applies_to_insert.
Qed.

(** X30. Marking an entity twice with an engine tag that is new and sorts
    before a tag of the entity does not give what marking it once gives:
    the first round appends the tag to the sorted list, the second sorts
    the list again. *)
Lemma mark_engine_twice_differs E (ent : EntityDef Value) a :
  E ∉ (get_appliesto ent).2 → a ∈ (get_appliesto ent).2 → str_lt E a →
  mark_engine E (mark_engine E ent) ≠ mark_engine E ent.
Proof.
  intros Hnew Ha Hlt Heq.
  apply (f_equal (λ e, filter (λ h, is_applies_to h = true) (helpers e))) in Heq.
  rewrite (mark_engine_applies_to E (mark_engine E ent)) in Heq.
  rewrite (mark_engine_applies_to E ent) in Heq.
  rewrite (decide_False (P := E ∈ (get_appliesto ent).2)) in Heq by done.
  set (args := (get_appliesto ent).2) in *.
  assert (Hargs2 : (get_appliesto (mark_engine E ent)).2 = sorted_set (args ++ [E])).
  { unfold get_appliesto at 1. simpl.
    rewrite (mark_engine_applies_to E ent).
    rewrite (decide_False (P := E ∈ (get_appliesto ent).2)) by done.
    simpl. by rewrite app_nil_r. }
  rewrite Hargs2 in Heq.
  rewrite decide_True in Heq
    by (apply elem_of_sorted_set, elem_of_app; right; by apply list_elem_of_singleton).
  injection Heq as Heq.
  pose proof (sorted_set_sorted (args ++ [E])) as Hsorted. rewrite Heq in Hsorted.
  assert (HaE : str_lt a E).
  { apply (StronglySorted_app_1_elem_of _ _ _ _ _ Hsorted Ha).
    by apply list_elem_of_singleton. }
  by apply (str_lt_irrefl E), (str_lt_trans E a E).
Qed.

End AppliesToFacts.

Lemma mark_engine_twice_differs_witness :
  mark_engine "EP1" (mark_engine "EP1" (Sample.point_entity "X" [(EXT_APPLIES_TO, ["HL2"])] []))
  ≠ mark_engine "EP1" (Sample.point_entity "X" [(EXT_APPLIES_TO, ["HL2"])] []).
Proof.
  apply (mark_engine_twice_differs "EP1" _ "HL2").
  - change ("EP1" ∉ ["HL2"]). intros H%list_elem_of_singleton. discriminate H.
  - change ("HL2" ∈ ["HL2"]). apply list_elem_of_here.
  - reflexivity.
Defined.

Section ImportFacts.

Implicit Types (fs : gmap string (FGD Value)) (ent new_ent : EntityDef Value).
Implicit Types (cur_map new_map : Dict string (Dict TagSet Value)).

(** *** Dictionary lemmas *)

Lemma get_set_item_eq {K V} `{EqDecision K} (k : K) (v : V) (d : Dict K V) :
  PyDict.get k (PyDict.set_item k v d) = Some v.
Proof.
  induction d as [|[k' v'] d IH]; simpl.
  - by rewrite decide_True.
  - destruct (decide (k = k')) as [->|Hne]; simpl.
    + by rewrite decide_True.
    + by rewrite decide_False.
Qed.

Lemma get_set_item_ne {K V} `{EqDecision K} (k k0 : K) (v : V) (d : Dict K V) :
  k ≠ k0 → PyDict.get k (PyDict.set_item k0 v d) = PyDict.get k d.
Proof.
  intros Hne. induction d as [|[k' v'] d IH]; simpl.
  - by rewrite decide_False.
  - destruct (decide (k0 = k')) as [->|Hne']; simpl.
    + by rewrite !decide_False.
    + destruct (decide (k = k')); [done | apply IH].
Qed.

Lemma get_fmap_values {K V} `{EqDecision K} (f : K * V → K * V) (k : K) (d : Dict K V) :
  (∀ kv, (f kv).1 = kv.1) →
  PyDict.get k (f <$> d) = (λ v, (f (k, v)).2) <$> PyDict.get k d.
Proof.
  intros Hf. induction d as [|[k' v'] d IH]; simpl; [done|].
  specialize (Hf (k', v')) as Hk. destruct (f (k', v')) as [k'' v''] eqn:Hfk.
  simpl in Hk. subst k''. destruct (decide (k = k')) as [->|Hne]; simpl.
  - by rewrite Hfk.
  - apply IH.
Qed.

(** *** The merge of one key *)

(** An untagged new value that equals an old alternative changes
    nothing: the guard of the retagging is the tag of the new value. *)
Lemma merge_alternative_untagged_equal E (orig : Dict TagSet Value) old v :
  List.find (λ old, bool_decide (old.2 = v)) orig = Some old →
  merge_alternative E orig (∅, v) = orig.
Proof.
  intros Hfind. unfold merge_alternative. rewrite Hfind. destruct old.
  by rewrite decide_False by (by intros []).
Qed.

Lemma merge_alternative_new E (orig : Dict TagSet Value) tag v :
  List.find (λ old, bool_decide (old.2 = v)) orig = None →
  merge_alternative E orig (tag, v) = PyDict.set_item (add_tag tag E) v orig.
Proof. intros Hfind. unfold merge_alternative. by rewrite Hfind. Qed.

(** Whatever the database holds for a key, importing an untagged value
    that equals one of its alternatives leaves the alternatives of that key
    as they are: no tag set is ever widened by such an import. *)
Lemma merge_category_untagged_equal E cur_map name tag_map old v :
  PyDict.get name cur_map = Some tag_map →
  List.find (λ old, bool_decide (old.2 = v)) tag_map = Some old →
  PyDict.get name (merge_category E cur_map [(name, [(∅, v)])]) = Some tag_map.
Proof.
  intros Hget Hfind. unfold merge_category, negate_removed.
  rewrite get_fmap_values by (intros kv; by destruct (decide _)).
  change (foldl (merge_name E) cur_map [(name, [(∅, v)])])
    with (merge_name E cur_map (name, [(∅, v)])).
  unfold merge_name. rewrite Hget.
  change (foldl (merge_alternative E) tag_map [(∅, v)])
    with (merge_alternative E tag_map (∅, v)).
  rewrite (merge_alternative_untagged_equal E tag_map old v Hfind).
  rewrite get_set_item_eq. cbn [fmap option_fmap option_map fst snd].
  rewrite decide_True; [done | apply list_elem_of_here].
Qed.

(** *** Names the fragment does not have *)

Lemma merge_name_other E cur_map name item :
  name ≠ item.1 →
  PyDict.get name (merge_name E cur_map item) = PyDict.get name cur_map.
Proof.
  destruct item as [n tag_map]. simpl. intros Hne. unfold merge_name.
  destruct (PyDict.get n cur_map); by apply get_set_item_ne.
Qed.

Lemma merge_names_other E cur_map new_map name :
  name ∉ new_map.*1 →
  PyDict.get name (foldl (merge_name E) cur_map new_map) = PyDict.get name cur_map.
Proof.
  revert cur_map. induction new_map as [|item new_map IH]; intros cur_map Hname; [done|].
  simpl in *. apply not_elem_of_cons in Hname as [Hne Hname].
  rewrite IH by done. by apply merge_name_other.
Qed.

(** A name of the old entity that the fragment lacks stays in the
    category, every one of its alternatives retagged by
    [add_tag tag ('!' + engine_tag)]. *)
Lemma merge_category_absent E cur_map new_map name tag_map :
  PyDict.get name cur_map = Some tag_map →
  name ∉ new_map.*1 →
  PyDict.get name (merge_category E cur_map new_map)
  = Some (retag ("!" +:+ E) tag_map).
Proof.
  intros Hget Hname. unfold merge_category, negate_removed.
  rewrite get_fmap_values.
  - rewrite merge_names_other, Hget by done. simpl.
    by rewrite decide_False.
  - intros kv. by destruct (decide _).
Qed.

(** *** The loop over the imported entities *)

Lemma import_entities_app E fs pre post :
  import_entities E fs (pre ++ post)
  = match import_entities E fs pre with
    | (fs1, None) => import_entities E fs1 post
    | stopped => stopped
    end.
Proof.
  revert fs. induction pre as [|x pre IH]; intros fs; simpl; [done|].
  destruct (import_entity E fs x); [apply IH | done].
Qed.

(** C4 (as stated). The import does not go on after the error of one
    classname: with the fragment [F_two], whose first classname hits the
    error, the second classname is never written, while it is written when
    the first is left out. *)
Lemma import_does_not_skip_failing_classname :
  ¬ import_skips_failing_classname.
Proof.
  intros Hskip.
  specialize (Hskip "EP1" Sample.fs_other [] (Sample.point_entity "A" [] [])
                [Sample.point_entity "B" [] []] Sample.fs_other
                [("A_old", Sample.point_entity "A_old" [] [])]
                eq_refl eq_refl eq_refl).
  apply (f_equal (λ m : gmap string (FGD Value), m !! "point//B.fgd")) in Hskip.
  vm_compute in Hskip. discriminate Hskip.
Qed.

(** C4 (amended). When the file at the canonical path of an imported
    classname exists and the file parsed from it lacks that classname (the
    lookup compares classnames without regard to case), the import raises
    [ValueError]: the whole invocation ends there, the files written for
    the earlier classnames stay as written and no later classname is
    processed. *)
Theorem import_missing_classname_aborts E fs (pre post : FGD Value) c x fs1 old_fgd :
  action_import E fs pre = (fs1, None) →
  fs1 !! ent_path x = Some old_fgd →
  fgd_getitem (classname x) old_fgd = None →
  action_import E fs (pre ++ (c, x) :: post)
  = (fs1, Some (ValueError "Classname not present in FGD!")).
Proof.
  unfold action_import. intros Hpre Hfile Hcls.
  rewrite fmap_app, import_entities_app, Hpre. simpl.
  unfold import_entity. by rewrite Hfile, Hcls.
Qed.

Lemma import_missing_classname_aborts_witness :
  action_import "EP1" Sample.fs_other Sample.F_three
  = (<["point//B.fgd" := [("B", mark_engine "EP1" (Sample.point_entity "B" [] []))]]>
       Sample.fs_other,
     Some (ValueError "Classname not present in FGD!")).
Proof.
  exact (import_missing_classname_aborts "EP1" Sample.fs_other
           [("B", Sample.point_entity "B" [] [])]
           [("C", Sample.point_entity "C" [] [])] "A"
           (Sample.point_entity "A" [] [])
           (<["point//B.fgd" := [("B", mark_engine "EP1" (Sample.point_entity "B" [] []))]]>
              Sample.fs_other)
           [("A_old", Sample.point_entity "A_old" [] [])]
           eq_refl eq_refl eq_refl).
Defined.

(** C1 (the code at the scenario). Importing the untagged fragment [F1]
    ([k = V1]) under [EP1] leaves the one alternative of [k] tagged [{HL2}]:
    the tag set is not widened by [EP1]. Importing [F2] ([k = V2]) under
    [EP2] afterwards adds the alternative [{EP2}] and leaves the first. *)
Theorem import_scenario_equal_value :
  let fs1 := (action_import "EP1" Sample.fs0 Sample.F1).1 in
  let fs2 := (action_import "EP2" fs1 Sample.F2).1 in
  stored_keyvalue fs1 "point//X.fgd" "X" "k" = Some [({[ "HL2" ]}, Sample.V1)]
  ∧ add_tag {[ "HL2" ]} "EP1" ≠ {[ "HL2" ]}
  ∧ stored_keyvalue fs2 "point//X.fgd" "X" "k"
    = Some [({[ "HL2" ]}, Sample.V1); (add_tag ∅ "EP2", Sample.V2)]
  ∧ add_tag ∅ "EP2" = {[ "EP2" ]}.
Proof.
  split; [|split; [|split]].
  - vm_compute. reflexivity.
  - apply (bool_decide_unpack _). vm_compute. reflexivity.
  - vm_compute. reflexivity.
  - apply (bool_decide_unpack _). vm_compute. reflexivity.
Qed.

(** C2 (the code at the scenario). Importing the fragment [F0], which
    lacks [k], under [EP1] keeps [k] and retags its alternative from
    [{HL2}] to [{HL2, !EP1}]. Importing [F1], which has [k = V1] again,
    under [EP1] afterwards leaves that tag set as it is: [!EP1] stays and
    [EP1] is not added. *)
Theorem import_scenario_absent_key :
  let fs1 := (action_import "EP1" Sample.fs0 Sample.F0).1 in
  let fs2 := (action_import "EP1" fs1 Sample.F1).1 in
  stored_keyvalue fs1 "point//X.fgd" "X" "k"
  = Some [(add_tag {[ "HL2" ]} "!EP1", Sample.V1)]
  ∧ stored_keyvalue fs2 "point//X.fgd" "X" "k"
    = Some [(add_tag {[ "HL2" ]} "!EP1", Sample.V1)]
  ∧ "!EP1" ∈ add_tag {[ "HL2" ]} "!EP1"
  ∧ "EP1" ∉ add_tag {[ "HL2" ]} "!EP1".
Proof.
  split; [|split; [|split]].
  - vm_compute. reflexivity.
  - vm_compute. reflexivity.
  - apply (bool_decide_unpack _). vm_compute. reflexivity.
  - apply (bool_decide_unpack _). vm_compute. reflexivity.
Qed.

(** C3 (the code at the scenario). Importing [F1] under [EP1] once leaves
    the helper [AppliesTo(HL2, EP1)]; importing it a second time leaves
    [AppliesTo(EP1, HL2)]: the two entities differ in the order of the
    arguments. *)
Theorem import_twice_reorders_appliesto :
  let fs1 := (action_import "EP1" Sample.fs0 Sample.F1).1 in
  let fs2 := (action_import "EP1" fs1 Sample.F1).1 in
  stored_helpers fs1 "point//X.fgd" "X" = Some [(EXT_APPLIES_TO, ["HL2"; "EP1"])]
  ∧ stored_helpers fs2 "point//X.fgd" "X" = Some [(EXT_APPLIES_TO, ["EP1"; "HL2"])]
  ∧ fs2 ≠ fs1.
Proof.
  split; [|split].
  - vm_compute. reflexivity.
  - vm_compute. reflexivity.
  - intros Heq.
    apply (f_equal (λ m, stored_helpers m "point//X.fgd" "X")) in Heq.
    vm_compute in Heq. discriminate Heq.
Qed.

End ImportFacts.

Section TaggedExportFacts.

Context {V : Type}.
Variable match_tags : TagSet → list string → bool.
Variable strip_tags : TagSet → EntityDef V → EntityDef V.
Variable collapse_bases : list (EntityDef V) → FGD V → FGD V.

(** What is taken from the collaborators: stripping the tags of an entity
    leaves its helpers alone, and collapsing the bases neither adds an entity
    nor changes the helpers of one. *)
Hypothesis strip_tags_helpers :
  ∀ tags ent, helpers (strip_tags tags ent) = helpers ent.
Hypothesis collapse_bases_entities :
  ∀ objs entities c ent',
    (c, ent') ∈ collapse_bases objs entities →
    ∃ ent, (c, ent) ∈ entities ∧ helpers ent' = helpers ent.

Implicit Types (ent : EntityDef V) (entities : FGD V) (tags : TagSet).

Lemma elem_of_set_item {K A} `{EqDecision K} (k k' : K) (v v' : A) (d : Dict K A) :
  (k', v') ∈ PyDict.set_item k v d → (k', v') ∈ d ∨ (k' = k ∧ v' = v).
Proof.
  induction d as [|[k0 v0] d IH]; simpl.
  - intros [= -> ->]%list_elem_of_singleton. by right.
  - destruct (decide (k = k0)) as [->|Hne].
    + intros [[= -> ->] | Hin]%elem_of_cons; [by right | left; by right].
    + intros [-> | Hin]%elem_of_cons; [left; by left |].
      destruct (IH Hin) as [? | ?]; [left; by right | by right].
Qed.

Lemma elem_of_cull tags entities (ents : list (EntityDef V)) c ent' :
  (c, ent') ∈ foldl (cull_step match_tags strip_tags tags) entities ents →
  (c, ent') ∈ entities
  ∨ ∃ ent, ent ∈ ents ∧ classname ent = c
           ∧ match_tags tags (get_appliesto ent).2 = true
           ∧ ent' = cull_entity match_tags strip_tags tags ent.
Proof.
  revert entities. induction ents as [|ent ents IH]; intros entities; simpl; [by left|].
  intros [Hin | (ent0 & Hent0 & Hrest)]%IH.
  - unfold cull_step in Hin.
    destruct (match_tags tags (get_appliesto ent).2) eqn:Hmatch; [|by left].
    apply elem_of_set_item in Hin as [Hin | [-> ->]]; [by left|].
    right. exists ent. split; [by left | done].
  - right. exists ent0. split; [by right | done].
Qed.

Lemma cull_entity_helpers tags ent h :
  match_tags tags (get_appliesto ent).2 = true →
  h ∈ helpers (cull_entity match_tags strip_tags tags ent) →
  h.1 ≠ EXT_APPLIES_TO.
Proof.
  unfold cull_entity. destruct (get_appliesto ent) as [[ent1 pos] applies_to].
  simpl. intros ->. rewrite strip_tags_helpers. simpl.
  by intros [Hh _]%list_elem_of_filter.
Qed.

Lemma classname_inj (ents : list (EntityDef V)) ent1 ent2 :
  NoDup (classname <$> ents) → ent1 ∈ ents → ent2 ∈ ents →
  classname ent1 = classname ent2 → ent1 = ent2.
Proof.
  induction ents as [|ent ents IH]; simpl; [by intros _ ?%elem_of_nil|].
  intros [Hfresh Hnd]%NoDup_cons [-> | H1]%elem_of_cons [-> | H2]%elem_of_cons Heq;
    [done | | | by apply IH].
  - destruct Hfresh. rewrite Heq. by apply list_elem_of_fmap_2.
  - destruct Hfresh. rewrite <- Heq. by apply list_elem_of_fmap_2.
Qed.

(** C6. Tagged-mode export: every exported entity stems from a loaded
    entity whose normalized AppliesTo list is selected by the expanded tags,
    so that, classnames being unique in the database, an entity that is not
    selected is absent from the export; no exported entity carries an
    AppliesTo helper; no exported entity is of kind BASE. *)
Theorem tagged_export_postcondition tags (fgd : FGD V) :
  NoDup (classname <$> fgd.*2) →
  let exported := action_export_tagged match_tags strip_tags collapse_bases tags fgd in
  (∀ ent, ent ∈ fgd.*2 →
          match_tags (expand_tags tags) (get_appliesto ent).2 = false →
          classname ent ∉ exported.*1)
  ∧ (∀ c ent' h, (c, ent') ∈ exported → h ∈ helpers ent' → h.1 ≠ EXT_APPLIES_TO)
  ∧ (∀ c ent', (c, ent') ∈ exported → type ent' ≠ BASE).
Proof.
  intros Hnd exported.
  assert (Horigin : ∀ c ent', (c, ent') ∈ exported →
            ∃ ent, ent ∈ fgd.*2 ∧ classname ent = c
                   ∧ match_tags (expand_tags tags) (get_appliesto ent).2 = true
                   ∧ helpers ent'
                     = helpers (cull_entity match_tags strip_tags (expand_tags tags) ent)).
  { intros c ent' [_ Hin]%list_elem_of_filter.
    apply collapse_bases_entities in Hin as (ent1 & Hin & Hhelpers).
    apply elem_of_cull in Hin as [Hin | (ent & Hent & Hc & Hmatch & ->)].
    - by apply elem_of_nil in Hin.
    - by exists ent. }
  split; [|split].
  - intros ent Hent Hmatch Hin.
    apply list_elem_of_fmap in Hin as ([c ent'] & Hc & Hin). simpl in Hc. subst c.
    apply Horigin in Hin as (ent0 & Hent0 & Hc & Hmatch0 & _).
    rewrite (classname_inj _ _ _ Hnd Hent0 Hent Hc) in Hmatch0. congruence.
  - intros c ent' h Hin Hh.
    apply Horigin in Hin as (ent & _ & _ & Hmatch & Hhelpers).
    rewrite Hhelpers in Hh. by eapply cull_entity_helpers.
  - by intros c ent' [Hty _]%list_elem_of_filter.
Qed.

End TaggedExportFacts.

Section SampleCollaborators.

Context {V : Type}.

Lemma sample_inherit_helpers fuel (objs : list (EntityDef V)) ent :
  helpers (Sample.inline_bases fuel objs ent) = helpers ent.
Proof.
  destruct fuel as [|fuel]; [done|]. simpl.
  generalize (bases ent). intros names. revert ent.
  induction names as [|name names IH]; intros ent; simpl; [done|].
  rewrite IH. by destruct (List.find _ objs).
Qed.

Lemma sample_collapse_bases_entities (objs : list (EntityDef V)) (entities : FGD V) c ent' :
  (c, ent') ∈ Sample.collapse_bases objs entities →
  ∃ ent, (c, ent) ∈ entities ∧ helpers ent' = helpers ent.
Proof.
  intros ([c0 ent] & [= -> ->] & Hin)%list_elem_of_fmap. simpl.
  exists ent. split; [done | apply sample_inherit_helpers].
Qed.

End SampleCollaborators.

Lemma tagged_export_postcondition_witness :
  let exported :=
    action_export_tagged Sample.match_tags Sample.strip_tags Sample.collapse_bases
      {[ "TF2" ]} Sample.loaded in
  (∀ ent, ent ∈ Sample.loaded.*2 →
          Sample.match_tags (expand_tags {[ "TF2" ]}) (get_appliesto ent).2 = false →
          classname ent ∉ exported.*1)
  ∧ (∀ c ent' h, (c, ent') ∈ exported → h ∈ helpers ent' → h.1 ≠ EXT_APPLIES_TO)
  ∧ (∀ c ent', (c, ent') ∈ exported → type ent' ≠ BASE).
Proof.
  apply (tagged_export_postcondition Sample.match_tags Sample.strip_tags
           Sample.collapse_bases (λ _ _, eq_refl) sample_collapse_bases_entities
           {[ "TF2" ]} Sample.loaded).
  apply (bool_decide_unpack _). vm_compute. reflexivity.
Defined.

Section EngineExportFacts.

Variable int_parses : string → bool.
Variable collapse_bases : FGD nat → FGD nat.

Implicit Types (st : ExportState) (tag_map : Dict TagSet nat) (e : exception).

Lemma bind_raise {A B} (m : M A) (f : A → M B) st e :
  m st = Raise e → (m ≫= f) st = Raise e.
Proof. unfold mbind, M_bind. by intros ->. Qed.

Lemma bind_ok {A B} (m : M A) (f : A → M B) st a st' :
  m st = Ok (a, st') → (m ≫= f) st = f a st'.
Proof. unfold mbind, M_bind. by intros ->. Qed.

(** An exception raised by one round ends the loop with that exception. *)
Lemma loop_reaches_raise {A B} (body : A → M B) l st0 x st e :
  loop_reaches body l st0 x st → body x st = Raise e → mapM body l st0 = Raise e.
Proof.
  intros (pre & post & done & -> & Hpre) Hraise.
  revert st0 done Hpre. induction pre as [|y pre IH]; intros st0 done Hpre; simpl in *.
  - injection Hpre as <- <-. by apply bind_raise.
  - unfold mbind at 1, M_bind at 1 in Hpre. unfold mbind at 1, M_bind at 1.
    destruct (body y st0) as [[b st1]|]; [|done].
    unfold mbind at 1, M_bind at 1 in Hpre.
    destruct (mapM body pre st1) as [[bs st2]|] eqn:Hrest; [|done].
    injection Hpre as <- <-.
    apply bind_raise. eapply IH. done.
Qed.

Lemma engine_entity_raise ent st0 item st e :
  entity_reaches int_parses ent st0 item st →
  engine_key int_parses (classname ent) item st = Raise e →
  engine_entity int_parses ent st0 = Raise e.
Proof.
  unfold entity_reaches, engine_entity.
  intros [Hin | (ins & st1 & Hins & [Hout | (outs & st2 & Houts & Hkv)])] Hraise.
  - apply bind_raise. by eapply loop_reaches_raise.
  - rewrite (bind_ok _ _ _ _ _ Hins). apply bind_raise. by eapply loop_reaches_raise.
  - rewrite (bind_ok _ _ _ _ _ Hins), (bind_ok _ _ _ _ _ Houts).
    apply bind_raise. by eapply loop_reaches_raise.
Qed.

Lemma action_export_engine_raise fgd st0 cls item st e :
  export_reaches int_parses collapse_bases fgd st0 cls item st →
  engine_key int_parses cls item st = Raise e →
  action_export_engine int_parses collapse_bases fgd st0 = Raise e.
Proof.
  intros (c & ent & st1 & Hloop & <- & Hent) Hraise.
  unfold action_export_engine. apply bind_raise.
  eapply loop_reaches_raise; [done|].
  unfold engine_item. simpl. apply bind_raise. by eapply engine_entity_raise.
Qed.

(** With more than one alternative and one of them tagged exactly
    [{ENGINE}], that one is chosen, unless its type is [CHOICES]. *)
Lemma select_value_engine cls key tag_map value st :
  1 < length tag_map →
  PyDict.get {[ "ENGINE" ]} tag_map = Some value →
  select_value cls key tag_map st
  = if decide (value_type (objects st value) = CHOICES)
    then Raise (ValueError (cls +:+ "." +:+ key +:+ ": Engine tags cannot be CHOICES!"))
    else Ok (value, st).
Proof.
  intros Hlen Hget. unfold select_value.
  rewrite decide_False by lia. rewrite Hget.
  unfold mbind, M_bind, deref. simpl. by destruct (decide _).
Qed.

(** C5. Engine-mode export of a key with more than one alternative, one of
    them keyed exactly by [{ENGINE}]: that alternative is the one selected
    and kept, with its description cleared; and when its type is [CHOICES],
    the body of the loop raises [ValueError], which ends the export as soon
    as the loop gets to that key. *)
Theorem engine_tag_rule cls key tag_map value st :
  1 < length tag_map →
  PyDict.get {[ "ENGINE" ]} tag_map = Some value →
  (value_type (objects st value) ≠ CHOICES →
     select_value cls key tag_map st = Ok (value, st)
     ∧ ∃ st', engine_key int_parses cls (key, tag_map) st
              = Ok ((key, [(∅, value)]), st')
            ∧ objects st' value = set_desc "" (objects st value)
            ∧ printed st' = printed st)
  ∧ (value_type (objects st value) = CHOICES →
     let err := ValueError (cls +:+ "." +:+ key +:+ ": Engine tags cannot be CHOICES!") in
     engine_key int_parses cls (key, tag_map) st = Raise err
     ∧ ∀ fgd st0,
         export_reaches int_parses collapse_bases fgd st0 cls (key, tag_map) st →
         action_export_engine int_parses collapse_bases fgd st0 = Raise err).
Proof.
  intros Hlen Hget.
  pose proof (select_value_engine cls key tag_map value st Hlen Hget) as Hsel.
  split.
  - intros Htype. rewrite decide_False in Hsel by done. split; [done|].
    eexists. unfold engine_key. rewrite (bind_ok _ _ _ _ _ Hsel).
    unfold convert_choices, mbind, M_bind, deref. simpl.
    rewrite decide_False by done. simpl.
    split; [reflexivity|]. simpl. by rewrite decide_True.
  - intros Htype err. rewrite decide_True in Hsel by done.
    assert (Hkey : engine_key int_parses cls (key, tag_map) st = Raise err).
    { unfold engine_key. by apply bind_raise. }
    split; [done|]. intros fgd st0 Hreach. by eapply action_export_engine_raise.
Qed.

End EngineExportFacts.

Lemma engine_tag_rule_witness :
  (select_value "logic_a" "count" [({[ "P2" ]}, 2); ({[ "ENGINE" ]}, 1)] Sample.engine_state
   = Ok (1, Sample.engine_state))
  ∧ action_export_engine Sample.all_digits id [("logic_a", Sample.logic_a)]
      Sample.engine_state
    = Raise (ValueError "logic_a.mode: Engine tags cannot be CHOICES!").
Proof.
  split.
  - refine (proj1 (proj1 (engine_tag_rule Sample.all_digits id "logic_a" "count"
                     [({[ "P2" ]}, 2); ({[ "ENGINE" ]}, 1)] 1 Sample.engine_state
                     _ eq_refl) _)).
    + simpl. lia.
    + simpl. discriminate.
  - pose (st1 := {| objects := λ r, if decide (r = 1) then KeyValues INT "" None "Count"
                                    else Sample.engine_objects r;
                    printed := [] |}).
    refine (proj2 (proj2 (engine_tag_rule Sample.all_digits id "logic_a" "mode"
                     [(∅, 2); ({[ "ENGINE" ]}, 0)] 0 st1 _ eq_refl) eq_refl)
              [("logic_a", Sample.logic_a)] Sample.engine_state _).
    + simpl. lia.
    + exists "logic_a", Sample.logic_a, Sample.engine_state. split; [|split; [done|]].
      * by exists [], [], [].
      * right. exists [], Sample.engine_state. split; [done|].
        right. exists [], Sample.engine_state. split; [done|].
        exists [("count", [({[ "P2" ]}, 2); ({[ "ENGINE" ]}, 1)])], [],
               [("count", [(∅, 1)])].
        split; reflexivity.
Defined.

Section AdvOutputFacts.

Import AdvOutput.

Implicit Types (adv_out ent : Entity) (ind : nat).

Lemma elem_of_param_keys k ind :
  k ∈ param_keys ind
  ↔ k = "params_pos" +:+ pretty ind ∨ k = "params_local" +:+ pretty ind
    ∨ k = "params_global" +:+ pretty ind.
Proof.
  unfold param_keys. rewrite !elem_of_cons, elem_of_nil. tauto.
Qed.

Lemma param_keys_disjoint i j k :
  i ≠ j → k ∈ param_keys i → k ∉ param_keys j.
Proof.
  intros Hij Hi Hj. apply elem_of_param_keys in Hi, Hj.
  destruct Hi as [-> | [-> | ->]]; destruct Hj as [Hj | [Hj | Hj]];
    solve [ by apply (inj _), (inj pretty) in Hj | simpl in Hj; discriminate Hj ].
Qed.

Lemma collect_params_ext fuel a b ind :
  (∀ j k, (ind ≤ j)%nat → k ∈ param_keys j → keys a !! k = keys b !! k) →
  collect_params fuel a ind = collect_params fuel b ind.
Proof.
  revert ind. induction fuel as [|fuel IH]; intros ind Hagree; [done|].
  simpl. unfold getitem.
  rewrite !(Hagree ind) by (first [lia | apply elem_of_param_keys; auto]).
  destruct (decide _); [done|].
  by rewrite (IH (S ind)) by (intros j k ?; apply Hagree; lia).
Qed.

Lemma str_or_nonempty a b : str_or a b ≠ "" → a ≠ "" ∨ b ≠ "".
Proof. unfold str_or. destruct (decide (a = "")); auto. Qed.

Lemma getitem_nonempty ent k : getitem ent k ≠ "" → is_Some (keys ent !! k).
Proof. unfold getitem. destruct (keys ent !! k); [eauto | done]. Qed.

(** The loop over [itertools.count(1)] ends: each round that goes on has
    read a key of the entity that no other round reads. *)
Lemma collect_params_total fuel adv_out ind :
  (size (keys adv_out) < fuel)%nat → is_Some (collect_params fuel adv_out ind).
Proof.
  revert adv_out ind. induction fuel as [|fuel IH]; intros adv_out ind Hsize; [lia|].
  simpl. destruct (decide _) as [|Hval]; [eauto|].
  assert (∃ k, k ∈ param_keys ind ∧ is_Some (keys adv_out !! k)) as (k & Hk & Hsome).
  { apply str_or_nonempty in Hval as [Hval | Hval];
      [|apply str_or_nonempty in Hval as [Hval | Hval]];
      apply getitem_nonempty in Hval; eexists; (split; [|exact Hval]);
      apply elem_of_param_keys; auto. }
  pose (b := {| keys := delete k (keys adv_out); outputs := outputs adv_out |}).
  rewrite (collect_params_ext fuel adv_out b (S ind)).
  - apply fmap_is_Some, IH. simpl.
    rewrite (map_size_delete_Some _ _ Hsome).
    destruct (size (keys adv_out)) as [|n] eqn:Hn; [|simpl; lia].
    apply map_size_empty_inv in Hn. rewrite Hn, lookup_empty in Hsome.
    by destruct Hsome.
  - intros j k' Hj Hk'. simpl. rewrite lookup_delete_ne; [done|].
    intros <-. apply (param_keys_disjoint ind j k); [lia | done | done].
Qed.

#[local] Arguments collect_params : simpl never.

Lemma add_out_found out (found : list nat) (m : gmap nat Entity) found_ent ent :
  found_ent ∈ found → m !! found_ent = Some ent →
  ∃ ent', foldl (λ m found_ent, alter (add_out out) found_ent m) m found !! found_ent
          = Some ent'
          ∧ (length (outputs ent) < length (outputs ent'))%nat
          ∧ last (outputs ent') = Some out.
Proof.
  revert m ent. induction found as [|x found IH]; intros m ent Hin Hent; simpl.
  { by apply elem_of_nil in Hin. }
  destruct (decide (found_ent ∈ found)) as [Hrest | Hrest].
  - destruct (decide (x = found_ent)) as [-> | Hne].
    + destruct (IH (alter (add_out out) found_ent m) (add_out out ent) Hrest)
        as (ent' & Hent' & Hlen & Hlast).
      { by rewrite lookup_alter_eq, Hent. }
      exists ent'. split; [done|]. split; [|done].
      simpl in Hlen. rewrite length_app in Hlen. lia.
    + apply IH; [done|]. by rewrite lookup_alter_ne.
  - apply elem_of_cons in Hin as [-> | Hin]; [|done].
    exists (add_out out ent). split; [|split].
    + assert (Hstable : ∀ (l : list nat) (m' : gmap nat Entity),
                x ∉ l → foldl (λ m found_ent, alter (add_out out) found_ent m) m' l !! x
                        = m' !! x).
      { induction l as [|y l IHl]; intros m' Hx; simpl; [done|].
        apply not_elem_of_cons in Hx as [Hxy Hx].
        rewrite IHl by done. by rewrite lookup_alter_ne. }
      rewrite Hstable by done. by rewrite lookup_alter_eq, Hent.
    + simpl. rewrite length_app. simpl. lia.
    + simpl. apply last_snoc.
Qed.

(** C10 (as stated). A negative delay does not always end in the output:
    the entity [sample_adv_out_unformattable] is enabled, has a target and
    a negative delay, the warning is logged, and then its format fails
    ([SimpleFormatter.get_value] has no second argument to return), which
    ends the round before any output is added. *)
Lemma negative_delay_can_add_nothing :
  ¬ negative_delay_always_adds_output.
Proof.
  intros Hclaim.
  destruct (Hclaim (λ _, true) sample_conv_int sample_conv_float sample_vformat
              sample_search sample_ctx 0 sample_adv_out_unformattable)
    as (ctx' & Hctx' & _ & Hadded).
  - vm_compute. discriminate.
  - vm_compute. reflexivity.
  - destruct (Hadded 1 sample_relay) as (ent' & ? & ? & Hent' & Hlen & _).
    + vm_compute. apply list_elem_of_here.
    + vm_compute. reflexivity.
    + vm_compute in Hctx'. injection Hctx' as <-.
      vm_compute in Hent'. injection Hent' as <-.
      simpl in Hlen. lia.
Qed.

Section Transform.

Variable check_control_enabled : Entity → bool.
Variable conv_int : string → Z → Z.
Variable conv_float : string → PrimFloat.float.
Variable vformat : (Z + string → list string → option string) → string → list string → option string.
Variable search : gmap nat Entity → string → list nat.

(** An entity that [check_control_enabled] rejects is removed from the map
    and nothing else happens: no warning, no output. *)
Lemma disabled_control_is_skipped ctx adv_id adv_out :
  check_control_enabled adv_out = false →
  process check_control_enabled conv_int conv_float vformat search ctx (adv_id, adv_out)
  = Some {| vmf := delete adv_id (vmf ctx); log := log ctx |}.
Proof. intros Hdisabled. unfold process. by rewrite Hdisabled. Qed.

(** C10 (amended). For every [comp_adv_output] entity that
    [check_control_enabled] accepts, that has a target name, whose [delay]
    and [delay2] sum to a negative number and whose [params_fmt] is empty
    or formats without an exception: the round returns, the warning is
    logged, and every entity found by the search gets the configured output
    added as its last output: [out_name], the target with the instance
    name, [inp_name], the formatted parameter and [times], with a delay of
    exactly [0.0]. *)
Theorem negative_delay_clamped ctx adv_id adv_out :
  check_control_enabled adv_out = true →
  str_or (getitem adv_out "target_local") (getitem adv_out "target_global") ≠ "" →
  PrimFloat.ltb (PrimFloat.add (conv_float (getitem adv_out "delay"))
                               (conv_float (getitem adv_out "delay2")))
    PrimFloat.zero = true →
  (getitem adv_out "params_fmt" = ""
   ∨ ∀ param_args,
       collect_params (S (size (keys adv_out))) adv_out 1 = Some param_args →
       is_Some (vformat get_value (getitem adv_out "params_fmt") param_args)) →
  negative_delay_outcome conv_int vformat search ctx adv_id adv_out
    (process check_control_enabled conv_int conv_float vformat search ctx
       (adv_id, adv_out)).
Proof.
  intros Henabled Htarget Hneg Hfmt. unfold negative_delay_outcome, process.
  rewrite Henabled. simpl. rewrite decide_False by done.
  unfold clamped_delay. rewrite Hneg.
  destruct (collect_params_total (S (size (keys adv_out))) adv_out 1)
    as [param_args Hparams]; [lia|].
  rewrite Hparams. simpl.
  assert (∃ parameter,
            (if decide (getitem adv_out "params_fmt" = "")
             then Some (getitem adv_out "params_fmt")
             else vformat get_value (getitem adv_out "params_fmt") param_args)
            = Some parameter
            ∧ (getitem adv_out "params_fmt" = "" ∧ parameter = ""
               ∨ getitem adv_out "params_fmt" ≠ ""
                 ∧ vformat get_value (getitem adv_out "params_fmt") param_args
                   = Some parameter)) as (parameter & -> & Hparameter).
  { destruct (decide (getitem adv_out "params_fmt" = "")) as [Hempty | Hformat].
    - exists "". split; [by rewrite Hempty | by left].
    - destruct Hfmt as [? | Hfmt]; [done|].
      destruct (Hfmt _ Hparams) as [parameter Hformatted].
      exists parameter. split; [done | by right]. }
  eexists. split; [reflexivity|]. simpl. split.
  - destruct (decide _); rewrite ?elem_of_app, !list_elem_of_singleton; auto.
  - intros found_ent ent Hfound Hent.
    edestruct add_out_found as (ent' & Hent' & Hlen & Hlast); [exact Hfound | exact Hent |].
    exists ent', param_args, parameter.
    split; [exact Hent'|]. split; [exact Hlen|]. split; [reflexivity|].
    split; [exact Hparameter | exact Hlast].
Qed.

End Transform.

Lemma negative_delay_clamped_witness :
  negative_delay_outcome sample_conv_int sample_vformat sample_search sample_ctx 0
    sample_adv_out
    (process (λ _, true) sample_conv_int sample_conv_float sample_vformat
       sample_search sample_ctx (0, sample_adv_out)).
Proof.
  apply (negative_delay_clamped (λ _, true) sample_conv_int sample_conv_float
           sample_vformat sample_search sample_ctx 0 sample_adv_out).
  - reflexivity.
  - vm_compute. discriminate.
  - vm_compute. reflexivity.
  - right. intros param_args Hparams. vm_compute in Hparams.
    injection Hparams as <-. vm_compute. eexists. reflexivity.
Defined.

End AdvOutputFacts.

(** * Further properties of the tag algebra *)

Section TagAlgebraMore.

Implicit Types (tags : gset string) (tag x : string).

Lemma upper_ascii_idemp (c : ascii) : upper_ascii (upper_ascii c) = upper_ascii c.
Proof. by destruct c as [[] [] [] [] [] [] [] []]. Qed.

Lemma upper_idemp (s : string) : upper (upper s) = upper s.
Proof. induction s as [|c s IH]; simpl; [done|]. by rewrite upper_ascii_idemp, IH. Qed.

Lemma upper_ascii_not_neg (c : ascii) :
  c ≠ "!"%char → c ≠ "-"%char → upper_ascii c ≠ "!"%char ∧ upper_ascii c ≠ "-"%char.
Proof. by destruct c as [[] [] [] [] [] [] [] []]. Qed.

Lemma upper_starts_with_neg (s : string) :
  starts_with_neg (upper s) = starts_with_neg s.
Proof.
  destruct s as [|c s]; simpl; [done|].
  destruct (decide (c = "!"%char)) as [->|Hbang]; [done|].
  destruct (decide (c = "-"%char)) as [->|Hdash]; [done|].
  destruct (upper_ascii_not_neg c Hbang Hdash) as [? ?].
  by rewrite !bool_decide_eq_false_2.
Qed.

Lemma index_of_None (x : string) (l : list string) : index_of x l = None ↔ x ∉ l.
Proof.
  induction l as [|y l IH]; simpl.
  - split; [intros _; apply not_elem_of_nil | done].
  - rewrite not_elem_of_cons. destruct (decide (x = y)) as [->|Hne].
    + split; [done | by intros [? _]].
    + rewrite fmap_None, IH. tauto.
Qed.

Lemma generated_in_vocabulary : generated_tags ⊆ ALL_TAGS.
Proof. apply (bool_decide_unpack _). vm_compute. reflexivity. Qed.

(** X1. The expansion distributes over the union of tag sets: expanding
    two sets together gives the union of their expansions. *)
Theorem expand_tags_union tags1 tags2 :
  expand_tags (tags1 ∪ tags2) = expand_tags tags1 ∪ expand_tags tags2.
Proof.
  apply set_eq. intros x. split.
  - intros [[Hx | Hx]%elem_of_union | (tag & [Htag | Htag]%elem_of_union & Hx)]%elem_of_expand_tags.
    + apply elem_of_union_l, elem_of_expand_tags. by left.
    + apply elem_of_union_r, elem_of_expand_tags. by left.
    + apply elem_of_union_l, elem_of_expand_tags. right. by exists tag.
    + apply elem_of_union_r, elem_of_expand_tags. right. by exists tag.
  - intros [[Hx | (tag & Htag & Hx)]%elem_of_expand_tags
           | [Hx | (tag & Htag & Hx)]%elem_of_expand_tags]%elem_of_union;
      apply elem_of_expand_tags.
    + left. by apply elem_of_union_l.
    + right. exists tag. split; [by apply elem_of_union_l | done].
    + left. by apply elem_of_union_r.
    + right. exists tag. split; [by apply elem_of_union_r | done].
Qed.

(** X2. The expansion stays inside the vocabulary: when every tag of a set
    is one of [ALL_TAGS] (what [main] checks before it exports), so is every
    tag of its expansion. *)
Theorem expand_tags_in_vocabulary tags :
  tags ⊆ ALL_TAGS → expand_tags tags ⊆ ALL_TAGS.
Proof.
  intros Hvalid x [Hx | (tag & _ & Hx)]%elem_of_expand_tags; [by apply Hvalid|].
  by apply generated_in_vocabulary, (expand_one_generated tag).
Qed.

Lemma expand_tags_in_vocabulary_witness :
  {[ "P2"; "SRCTOOLS" ]} ⊆ ALL_TAGS ∧ expand_tags {[ "P2"; "SRCTOOLS" ]} ⊆ ALL_TAGS.
Proof.
  assert (Hvalid : ({[ "P2"; "SRCTOOLS" ]} : gset string) ⊆ ALL_TAGS).
  { apply (bool_decide_unpack _). vm_compute. reflexivity. }
  split; [exact Hvalid | exact (expand_tags_in_vocabulary _ Hvalid)].
Defined.

(** X3. Tags that name neither a release nor a feature bundle, in any
    case, are left as they are: the expansion of such a set is the set. *)
Theorem expand_tags_unknown tags :
  (∀ tag, tag ∈ tags → FEATURES !! upper tag = None ∧ upper tag ∉ GAME_ORDER) →
  expand_tags tags = tags.
Proof.
  intros Hunknown. apply set_eq. intros x. rewrite elem_of_expand_tags.
  split; [|by left]. intros [? | (tag & Htag & Hx)]; [done|].
  destruct (Hunknown tag Htag) as [Hfeat Hgame]. apply index_of_None in Hgame.
  unfold expand_one in Hx. rewrite Hfeat, Hgame in Hx. simpl in Hx.
  apply elem_of_union in Hx as [Hx | Hx]; by apply not_elem_of_empty in Hx.
Qed.

Lemma expand_tags_unknown_witness :
  expand_tags {[ "SRCTOOLS"; "vscript" ]} = {[ "SRCTOOLS"; "vscript" ]}.
Proof.
  apply expand_tags_unknown. intros tag Htag.
  apply elem_of_union in Htag as [Htag | Htag]; apply elem_of_singleton in Htag;
    subst tag; (split; [reflexivity | apply (bool_decide_unpack _); vm_compute; reflexivity]).
Defined.

(** X4. Releases and features are looked up without regard to case: a tag
    expands to the tags its upper-case form expands to, and is itself kept
    as written. *)
Theorem expand_tags_case_insensitive tag :
  expand_tags {[ tag ]} ∪ {[ upper tag ]} = expand_tags {[ upper tag ]} ∪ {[ tag ]}.
Proof.
  unfold expand_tags. rewrite !set_fold_singleton.
  unfold expand_one. rewrite upper_idemp.
  apply set_eq. intros x. rewrite !elem_of_union, !elem_of_singleton. tauto.
Qed.

(** X5. Toggling the same tag twice changes nothing more: [add_tag] is
    idempotent in its tag, negated or not. *)
Theorem add_tag_idempotent tags (new_tag : string) :
  add_tag (add_tag tags new_tag) new_tag = add_tag tags new_tag.
Proof.
  unfold add_tag. destruct (starts_with_neg new_tag) eqn:Hneg.
  - apply set_eq. intros x.
    rewrite !elem_of_union, !elem_of_difference, !elem_of_union,
      !elem_of_difference, !elem_of_singleton. tauto.
  - cbv zeta. set (up := upper new_tag).
    set (tag_set := tags ∖ {[ "!" +:+ up ]} ∖ {[ "-" +:+ up ]}).
    assert (Hstable : ∀ s : gset string,
              "!" +:+ up ∉ s → "-" +:+ up ∉ s →
              s ∖ {[ "!" +:+ up ]} ∖ {[ "-" +:+ up ]} = s).
    { intros s Hbang Hdash. apply set_eq. intros x.
      rewrite !elem_of_difference, !elem_of_singleton. split; [tauto|].
      intros Hx. split; [split; [done|]|]; by intros ->. }
    assert (Hbang : "!" +:+ up ∉ tag_set).
    { unfold tag_set. rewrite !elem_of_difference, !elem_of_singleton. tauto. }
    assert (Hdash : "-" +:+ up ∉ tag_set).
    { unfold tag_set. rewrite !elem_of_difference, !elem_of_singleton. tauto. }
    destruct (decide ("+" +:+ up ∈ tag_set)) as [Hplus | Hplus].
    + rewrite (Hstable tag_set Hbang Hdash). by rewrite decide_True.
    + rewrite (Hstable ({[ up ]} ∪ tag_set)).
      * rewrite decide_False.
        { apply set_eq. intros x. rewrite !elem_of_union. tauto. }
        intros [Hup | ?]%elem_of_union; [|done].
        apply elem_of_singleton in Hup. symmetry in Hup.
        by apply (neg_prefix_ne "+"%char up).
      * intros [Hup | ?]%elem_of_union; [|done].
        apply elem_of_singleton in Hup. symmetry in Hup.
        by apply (neg_prefix_ne "!"%char up).
      * intros [Hup | ?]%elem_of_union; [|done].
        apply elem_of_singleton in Hup. symmetry in Hup.
        by apply (neg_prefix_ne "-"%char up).
Qed.

(** X6. Toggling a positive tag removes both negated forms of its
    upper-case token, and leaves the token itself in the set unless the
    required form ['+' + token] is there. *)
Theorem add_tag_positive tags (new_tag : string) :
  starts_with_neg new_tag = false →
  (("!" +:+ upper new_tag) ∉ add_tag tags new_tag)
  ∧ (("-" +:+ upper new_tag) ∉ add_tag tags new_tag)
  ∧ (upper new_tag ∈ add_tag tags new_tag
     ∨ ("+" +:+ upper new_tag) ∈ add_tag tags new_tag).
Proof.
  intros Hneg. unfold add_tag. rewrite Hneg. cbv zeta.
  set (up := upper new_tag).
  destruct (decide _) as [Hplus | Hplus].
  - split; [|split; [|by right]];
      rewrite !elem_of_difference, !elem_of_singleton; tauto.
  - split; [|split].
    + intros [Hup | Hin]%elem_of_union.
      * apply elem_of_singleton in Hup. symmetry in Hup.
        by apply (neg_prefix_ne "!"%char up).
      * revert Hin. rewrite !elem_of_difference, !elem_of_singleton. tauto.
    + intros [Hup | Hin]%elem_of_union.
      * apply elem_of_singleton in Hup. symmetry in Hup.
        by apply (neg_prefix_ne "-"%char up).
      * revert Hin. rewrite !elem_of_difference, !elem_of_singleton. tauto.
    + left. apply elem_of_union_l. by apply elem_of_singleton.
Qed.

Lemma add_tag_positive_witness :
  ("!EP1" ∉ add_tag {[ "HL2"; "!EP1" ]} "ep1")
  ∧ ("-EP1" ∉ add_tag {[ "HL2"; "!EP1" ]} "ep1")
  ∧ ("EP1" ∈ add_tag {[ "HL2"; "!EP1" ]} "ep1" ∨ "+EP1" ∈ add_tag {[ "HL2"; "!EP1" ]} "ep1").
Proof. exact (add_tag_positive {[ "HL2"; "!EP1" ]} "ep1" eq_refl). Defined.

(** X7. A toggle touches its own token only: a tag that is neither the new
    tag, nor its tail, nor its upper-case form or a negation of that form is
    in the result exactly when it was in the set. *)
Theorem add_tag_frame tags (new_tag x : string) :
  x ≠ new_tag → x ≠ tail new_tag → x ≠ upper new_tag →
  x ≠ "!" +:+ upper new_tag → x ≠ "-" +:+ upper new_tag →
  x ∈ add_tag tags new_tag ↔ x ∈ tags.
Proof.
  intros Hnew Htail Hup Hbang Hdash. unfold add_tag.
  destruct (starts_with_neg new_tag); [|cbv zeta; destruct (decide _)];
    rewrite ?elem_of_union, !elem_of_difference, !elem_of_singleton; tauto.
Qed.

Lemma add_tag_frame_witness :
  "HL2" ∈ add_tag {[ "HL2"; "EP1" ]} "!EP1" ↔ "HL2" ∈ ({[ "HL2"; "EP1" ]} : gset string).
Proof.
  apply (add_tag_frame {[ "HL2"; "EP1" ]} "!EP1" "HL2"); discriminate.
Defined.

End TagAlgebraMore.

(** * Further properties of the storage paths and of [get_appliesto] *)

Section PathsAndAppliesTo.

Context {V : Type}.
Implicit Types (ent : EntityDef V) (hs : list Helper).

Lemma string_length_app (s t : string) :
  String.length (s +:+ t) = (String.length s + String.length t)%nat.
Proof. induction s as [|c s IH]; simpl; [done|]. by rewrite <- IH. Qed.

Lemma app_suffix_inj (s1 s2 t : string) : s1 +:+ t = s2 +:+ t → s1 = s2.
Proof.
  revert s2. induction s1 as [|c s1 IH]; intros [|c' s2] Heq.
  - done.
  - apply (f_equal String.length) in Heq.
    rewrite !string_length_app in Heq. simpl in Heq. lia.
  - apply (f_equal String.length) in Heq.
    rewrite !string_length_app in Heq. simpl in Heq. lia.
  - change (String c (s1 +:+ t) = String c' (s2 +:+ t)) in Heq.
    injection Heq as -> Heq. by rewrite (IH _ Heq).
Qed.

Definition folder_of (t : EntityTypes) : string :=
  match t with
  | BASE => "bases"
  | BRUSH => "brush"
  | _ => "point/"
  end.

Lemma folder_path_inj (t1 t2 : EntityTypes) (c1 c2 : string) :
  folder_of t1 +:+ "/" +:+ c1 +:+ ".fgd" = folder_of t2 +:+ "/" +:+ c2 +:+ ".fgd" →
  c1 = c2.
Proof.
  intros Heq. apply (app_suffix_inj c1 c2 ".fgd").
  destruct t1, t2; unfold folder_of in Heq;
    first [ discriminate Heq
          | by repeat (apply (inj (String.app _)) in Heq) ].
Qed.

(** X8. Two entities with different classnames never share a file of the
    database: entities at the same path have the same classname. *)
Theorem ent_path_classname ent1 ent2 :
  ent_path ent1 = ent_path ent2 → classname ent1 = classname ent2.
Proof.
  unfold ent_path.
  destruct (decide (classname ent1 = "worldspawn")) as [H1 | H1];
    destruct (decide (classname ent2 = "worldspawn")) as [H2 | H2].
  - congruence.
  - intros Heq. destruct (type ent2); discriminate Heq.
  - intros Heq. destruct (type ent1); discriminate Heq.
  - apply folder_path_inj.
Qed.

Lemma filter_id {A} (P : A → Prop) `{∀ x, Decision (P x)} (l : list A) :
  Forall P l → filter P l = l.
Proof.
  induction 1 as [|x l Hx Hl IH]; [done|].
  by rewrite filter_cons_True, IH.
Qed.

Lemma filter_others_insert hs (x : Helper) pos :
  is_applies_to x = true →
  filter (λ h, is_applies_to h = false)
    (list_insert_at pos x (filter (λ h, is_applies_to h = false) hs))
  = filter (λ h, is_applies_to h = false) hs.
Proof.
  intros Hx. unfold list_insert_at.
  rewrite filter_app, filter_cons_False by (rewrite Hx; done).
  rewrite <- filter_app, take_drop. apply filter_id.
  apply Forall_forall. intros h Hh. by apply list_elem_of_filter in Hh as [? _].
Qed.

Lemma first_applies_to_insert hs (x : Helper) :
  is_applies_to x = true →
  first_applies_to
    (list_insert_at (default 0 (first_applies_to hs)) x
       (filter (λ h, is_applies_to h = false) hs))
  = Some (default 0 (first_applies_to hs)).
Proof.
  intros Hx. induction hs as [|h hs IH]; simpl.
  - unfold list_insert_at. simpl. by rewrite Hx.
  - destruct (is_applies_to h) eqn:Hh; simpl.
    + unfold list_insert_at. simpl. by rewrite Hx.
    + rewrite filter_cons_True by done.
      destruct (first_applies_to hs) as [pos|]; simpl in *.
      * unfold list_insert_at in *. simpl. by rewrite Hh, IH.
      * unfold list_insert_at. simpl. by rewrite Hx.
Qed.

Lemma elem_of_concat {A} (x : A) (ls : list (list A)) :
  x ∈ concat ls ↔ ∃ l, l ∈ ls ∧ x ∈ l.
Proof.
  induction ls as [|l ls IH]; simpl.
  - split; [by intros ?%elem_of_nil | by intros (l & ?%elem_of_nil & _)].
  - rewrite elem_of_app, IH. split.
    + intros [Hx | (l' & Hl' & Hx)]; [exists l | exists l'];
        (split; [|done]); [by left | by right].
    + intros (l' & [-> | Hl']%elem_of_cons & Hx); [by left | right; by exists l'].
Qed.

Lemma sorted_set_of_sorted (l : list string) :
  StronglySorted str_lt l → sorted_set l = l.
Proof.
  unfold sorted_set. induction 1 as [|x l Hsorted IH Hall]; simpl; [done|].
  rewrite IH. destruct l as [|y l]; simpl; [done|].
  apply Forall_cons in Hall as [Hxy _].
  rewrite decide_False by (intros ->; by apply (str_lt_irrefl y)).
  unfold str_lt in Hxy. by rewrite Hxy.
Qed.

(** X9. [get_appliesto] leaves exactly one [AppliesTo] helper, at the index
    it returns and holding the list it returns; every other helper is kept,
    in the same order, and nothing else of the entity changes. *)
Theorem get_appliesto_one_helper ent :
  let '(ent', pos, arg_list) := get_appliesto ent in
  filter (λ h, is_applies_to h = true) (helpers ent') = [(EXT_APPLIES_TO, arg_list)]
  ∧ helpers ent' !! pos = Some (EXT_APPLIES_TO, arg_list)
  ∧ filter (λ h, is_applies_to h = false) (helpers ent')
    = filter (λ h, is_applies_to h = false) (helpers ent)
  ∧ ent' = with_helpers (helpers ent') ent.
Proof.
  unfold get_appliesto. simpl. split; [|split; [|split]].
  - by apply filter_applies_to_insert.
  - apply list_insert_at_first_applies_to.
  - by apply filter_others_insert.
  - done.
Qed.

(** X10. The list that [get_appliesto] returns is strictly increasing, so
    without duplicates, and its members are exactly the arguments of the
    [AppliesTo] helpers of the entity. *)
Theorem get_appliesto_sorted_union ent :
  StronglySorted str_lt (get_appliesto ent).2
  ∧ ∀ x, x ∈ (get_appliesto ent).2
         ↔ ∃ args, (EXT_APPLIES_TO, args) ∈ helpers ent ∧ x ∈ args.
Proof.
  unfold get_appliesto. simpl. split; [apply sorted_set_sorted|].
  intros x. rewrite elem_of_sorted_set, elem_of_concat. split.
  - intros (args & Hargs & Hx). exists args. split; [|done].
    apply list_elem_of_fmap in Hargs as ([ht args'] & -> & Hin).
    apply list_elem_of_filter in Hin as [Happ Hin].
    unfold is_applies_to in Happ. apply bool_decide_eq_true in Happ.
    simpl in Happ. by subst ht.
  - intros (args & Hin & Hx). exists args. split; [|done].
    apply list_elem_of_fmap. exists (EXT_APPLIES_TO, args). split; [done|].
    apply list_elem_of_filter. split; [|done].
    unfold is_applies_to. by apply bool_decide_eq_true.
Qed.

(** X11. Normalizing an entity that is already normalized changes nothing:
    a second [get_appliesto] returns the same entity, index and list. *)
Theorem get_appliesto_idempotent ent :
  get_appliesto (get_appliesto ent).1.1 = get_appliesto ent.
Proof.
  unfold get_appliesto at 1. simpl.
  rewrite filter_applies_to_insert by done.
  rewrite filter_others_insert by done.
  rewrite first_applies_to_insert by done.
  simpl. rewrite app_nil_r, (sorted_set_of_sorted _ (sorted_set_sorted _)).
  reflexivity.
Qed.

End PathsAndAppliesTo.

Lemma ent_path_classname_witness :
  classname Sample.prop_scalable = classname (with_helpers [] Sample.prop_scalable).
Proof.
  exact (ent_path_classname Sample.prop_scalable
           (with_helpers [] Sample.prop_scalable) eq_refl).
Defined.

(** * Further properties of the import *)

Section ImportMore.

Implicit Types (fs : gmap string (FGD Value)) (ent new_ent : EntityDef Value).
Implicit Types (cur_map new_map : Dict string (Dict TagSet Value)).

(** *** Descriptions *)

Lemma string_app_empty_r (s : string) : s +:+ "" = s.
Proof.
  induction s as [|c s IH]; [done|].
  change (String c s +:+ "") with (String c (s +:+ "")). by rewrite IH.
Qed.

Lemma prefix_app (s t : string) : String.prefix s (s +:+ t) = true.
Proof.
  induction s as [|c s IH]; [by destruct t|].
  change (String c s +:+ t) with (String c (s +:+ t)). simpl.
  destruct (ascii_dec c c); [exact IH | done].
Qed.

Lemma contains_prefix (sub s : string) : String.prefix sub s = true → contains sub s = true.
Proof. intros Hprefix. destruct s; cbn [contains]; by rewrite Hprefix. Qed.

Lemma contains_app_l (sub p s : string) :
  contains sub s = true → contains sub (p +:+ s) = true.
Proof.
  intros Hs. induction p as [|c p IH]; [done|].
  change (String c p +:+ s) with (String c (p +:+ s)).
  cbn [contains]. rewrite IH. apply orb_true_r.
Qed.

(** X12. Merging a description never loses the old text, always leaves
    the new text contained in the result, and is stable: merging the same
    text once more changes nothing. *)
Theorem merge_desc_keeps (old new : string) :
  (∃ suffix, merge_desc old new = old +:+ suffix)
  ∧ contains new (merge_desc old new) = true
  ∧ merge_desc (merge_desc old new) new = merge_desc old new.
Proof.
  assert (Hcontains : contains new (merge_desc old new) = true).
  { unfold merge_desc. destruct (contains new old) eqn:Hin; [done|].
    apply contains_app_l, contains_app_l, contains_prefix.
    rewrite <- (string_app_empty_r new) at 2. apply prefix_app. }
  split; [|split; [done|]].
  - unfold merge_desc. destruct (contains new old).
    + exists "". by rewrite string_app_empty_r.
    + by eexists.
  - unfold merge_desc at 1. by rewrite Hcontains.
Qed.

(** *** Bases and helpers *)

Section AppendMissing.

Context {A : Type} `{EqDecision A}.
Implicit Types (old new : list A).

Lemma append_missing_cons old x new :
  append_missing old (x :: new)
  = append_missing (if decide (x ∈ old) then old else old ++ [x]) new.
Proof. reflexivity. Qed.

Lemma append_missing_prefix old new : ∃ added, append_missing old new = old ++ added.
Proof.
  revert old. induction new as [|x new IH]; intros old.
  - exists []. by rewrite app_nil_r.
  - rewrite append_missing_cons. destruct (decide (x ∈ old)); [apply IH|].
    destruct (IH (old ++ [x])) as [added ->]. exists (x :: added).
    by rewrite <- app_assoc.
Qed.

Lemma append_missing_old old new x : x ∈ old → x ∈ append_missing old new.
Proof.
  intros Hx. destruct (append_missing_prefix old new) as [added ->].
  apply elem_of_app. by left.
Qed.

Lemma append_missing_new old new x : x ∈ new → x ∈ append_missing old new.
Proof.
  revert old. induction new as [|y new IH]; intros old Hx.
  - by apply elem_of_nil in Hx.
  - rewrite append_missing_cons. apply elem_of_cons in Hx as [-> | Hx]; [|by apply IH].
    apply append_missing_old. destruct (decide (y ∈ old)); [done|].
    apply elem_of_app. right. by apply list_elem_of_singleton.
Qed.

Lemma append_missing_origin old new x :
  x ∈ append_missing old new → x ∈ old ∨ x ∈ new.
Proof.
  revert old. induction new as [|y new IH]; intros old Hx; [by left|].
  rewrite append_missing_cons in Hx. apply IH in Hx as [Hx | Hx].
  - destruct (decide (y ∈ old)); [by left|].
    apply elem_of_app in Hx as [Hx | ->%list_elem_of_singleton]; [by left|].
    right. by left.
  - right. by right.
Qed.

Lemma append_missing_nodup old new : NoDup old → NoDup (append_missing old new).
Proof.
  revert old. induction new as [|y new IH]; intros old Hnd; [done|].
  rewrite append_missing_cons. apply IH. destruct (decide (y ∈ old)); [done|].
  apply NoDup_app. split; [done|]. split; [|apply NoDup_singleton].
  intros x Hx ->%list_elem_of_singleton. done.
Qed.

Lemma append_missing_present old new :
  (∀ x, x ∈ new → x ∈ old) → append_missing old new = old.
Proof.
  induction new as [|y new IH]; intros Hall; [done|].
  rewrite append_missing_cons, decide_True by (apply Hall; by left).
  apply IH. intros x Hx. apply Hall. by right.
Qed.

(** X13. The merge of the bases, and of the helpers: the old list stays
    as the front of the result, in its order; the result has the members of
    both lists and no others; an old list without duplicates gives a result
    without duplicates; and merging the same new list again changes
    nothing. *)
Theorem append_missing_merge old new :
  (∃ added, append_missing old new = old ++ added)
  ∧ (∀ x, x ∈ append_missing old new ↔ x ∈ old ∨ x ∈ new)
  ∧ (NoDup old → NoDup (append_missing old new))
  ∧ append_missing (append_missing old new) new = append_missing old new.
Proof.
  split; [apply append_missing_prefix|]. split; [|split].
  - intros x. split; [apply append_missing_origin|].
    intros [? | ?]; [by apply append_missing_old | by apply append_missing_new].
  - apply append_missing_nodup.
  - apply append_missing_present. intros x. apply append_missing_new.
Qed.

End AppendMissing.

(** *** The files of the database *)

Lemma mark_engine_fields E ent :
  mark_engine E ent = with_helpers (helpers (mark_engine E ent)) ent.
Proof.
  unfold mark_engine, get_appliesto. simpl. by destruct (decide _).
Qed.

Lemma classname_le_trans (a b c : string * EntityDef Value) :
  classname_le a b → classname_le b c → classname_le a c.
Proof.
  unfold classname_le. intros Hab Hbc.
  destruct (String.ltb (classname c.2) (classname a.2)) eqn:Hca; [|done].
  destruct (decide (classname b.2 = classname a.2)) as [Heq | Hne].
  - rewrite Heq in Hbc. congruence.
  - apply str_lt_total in Hab; [|done].
    pose proof (str_lt_trans _ _ _ Hca Hab) as Hcb. unfold str_lt in Hcb. congruence.
Qed.

Lemma insert_by_classname_perm (item : string * EntityDef Value) l :
  insert_by_classname item l ≡ₚ item :: l.
Proof.
  induction l as [|y l IH]; simpl; [done|].
  destruct (String.ltb _ _); [|done]. rewrite IH. apply Permutation_swap.
Qed.

Lemma sorted_ents_perm (fgd : FGD Value) : sorted_ents fgd ≡ₚ fgd.
Proof.
  induction fgd as [|item fgd IH]; simpl; [done|].
  rewrite insert_by_classname_perm. by rewrite IH.
Qed.

Lemma insert_by_classname_sorted item (l : FGD Value) :
  StronglySorted classname_le l → StronglySorted classname_le (insert_by_classname item l).
Proof.
  induction 1 as [|y l Hsorted IH Hall]; simpl.
  { repeat constructor. }
  destruct (String.ltb (classname y.2) (classname item.2)) eqn:Hlt.
  - constructor; [exact IH|].
    rewrite insert_by_classname_perm. constructor; [|exact Hall].
    unfold classname_le. destruct (String.ltb (classname item.2) (classname y.2)) eqn:Hgt; [|done].
    destruct (str_lt_irrefl (classname y.2)). by apply (str_lt_trans _ (classname item.2)).
  - constructor; [by constructor|]. constructor; [exact Hlt|].
    eapply Forall_impl; [exact Hall|]. intros z Hz. by apply (classname_le_trans _ y).
Qed.

Lemma sorted_ents_sorted (fgd : FGD Value) : StronglySorted classname_le (sorted_ents fgd).
Proof.
  induction fgd as [|item fgd IH]; simpl; [constructor|].
  by apply insert_by_classname_sorted.
Qed.

Lemma fgd_update_labels cls ent' (fgd : FGD Value) :
  (fgd_update cls ent' fgd).*1 = fgd.*1.
Proof.
  induction fgd as [|[c ent] fgd IH]; [done|]. cbn [fgd_update].
  destruct (decide _); rewrite !fmap_cons; [done | by rewrite IH].
Qed.

Lemma fgd_update_other cls ent' (fgd : FGD Value) c ent :
  casefold c ≠ casefold cls → (c, ent) ∈ fgd_update cls ent' fgd ↔ (c, ent) ∈ fgd.
Proof.
  intros Hc. induction fgd as [|[c0 ent0] fgd IH]; simpl; [done|].
  destruct (decide (casefold c0 = casefold cls)) as [Hfound | Hother].
  - rewrite !elem_of_cons. split; (intros [[= -> ->] | ?]; [done | by right]).
  - rewrite !elem_of_cons, IH. done.
Qed.

Lemma fgd_update_found cls ent' (fgd : FGD Value) :
  is_Some (fgd_getitem cls fgd) →
  ∃ c, (c, ent') ∈ fgd_update cls ent' fgd ∧ casefold c = casefold cls.
Proof.
  induction fgd as [|[c ent] fgd IH]; simpl; [by intros [? ?]|].
  destruct (decide (casefold c = casefold cls)) as [Hfound | Hother].
  - intros _. exists c. split; [apply list_elem_of_here | done].
  - intros (c' & Hin & Hc')%IH. exists c'. split; [by apply list_elem_of_further | done].
Qed.

Lemma fgd_getitem_unique cls (fgd : FGD Value) c ent :
  NoDup (casefold <$> fgd.*1) → (c, ent) ∈ fgd → casefold c = casefold cls →
  fgd_getitem cls fgd = Some ent.
Proof.
  intros Hnodup Hin Hc. induction fgd as [|[c0 ent0] fgd IH]; simpl.
  { by apply elem_of_nil in Hin. }
  simpl in Hnodup. apply NoDup_cons in Hnodup as [Hfresh Hnodup].
  apply elem_of_cons in Hin as [[= <- <-] | Hin]; [by rewrite decide_True|].
  destruct (decide (casefold c0 = casefold cls)) as [Hfound | Hother]; [|by apply IH].
  destruct Hfresh. rewrite Hfound, <- Hc.
  apply list_elem_of_fmap. exists c. split; [done|].
  apply list_elem_of_fmap. by exists (c, ent).
Qed.

(** X14. The import of one entity writes the file at the path of that
    entity and no other. In that file, when it exists, the classnames
    listed are the ones listed before, now ordered by the classnames of the
    entities; and every entity listed under another classname (compared
    without regard to case) is left as it was. *)
Theorem import_entity_writes_one E fs new_ent fs' :
  import_entity E fs new_ent = Ok fs' →
  (∀ path, path ≠ ent_path new_ent → fs' !! path = fs !! path)
  ∧ ∀ old_fgd, fs !! ent_path new_ent = Some old_fgd →
      ∃ new_fgd, fs' !! ent_path new_ent = Some new_fgd
                 ∧ new_fgd.*1 ≡ₚ old_fgd.*1
                 ∧ StronglySorted classname_le new_fgd
                 ∧ ∀ c ent, casefold c ≠ casefold (classname new_ent) →
                     (c, ent) ∈ new_fgd ↔ (c, ent) ∈ old_fgd.
Proof.
  unfold import_entity. intros Himport.
  destruct (fs !! ent_path new_ent) as [old_fgd|] eqn:Hfile.
  - destruct (fgd_getitem (classname new_ent) old_fgd) as [ent|] eqn:Hent; [|done].
    injection Himport as <-. split.
    + intros path Hpath. by rewrite lookup_insert_ne.
    + intros ? [= <-]. eexists. split; [apply lookup_insert_eq|]. split; [|split].
      * etrans; [apply fmap_Permutation, sorted_ents_perm|].
        by rewrite (fgd_update_labels (classname new_ent)).
      * apply sorted_ents_sorted.
      * intros c e Hc. rewrite sorted_ents_perm. by apply fgd_update_other.
  - injection Himport as <-. split; [|done].
    intros path Hpath. by rewrite lookup_insert_ne.
Qed.

Lemma import_entity_writes_one_witness :
  ∃ fs' new_fgd,
    import_entity "EP1" Sample.fs_unsorted (Sample.point_entity "X" [] []) = Ok fs'
    ∧ fs' !! "point//Y.fgd" = Sample.fs_unsorted !! "point//Y.fgd"
    ∧ fs' !! "point//X.fgd" = Some new_fgd
    ∧ new_fgd.*1 ≡ₚ ["x"; "W"]
    ∧ StronglySorted classname_le new_fgd
    ∧ ∀ c ent, casefold c ≠ "x" →
        (c, ent) ∈ new_fgd ↔ (c, ent) ∈ [("x", Sample.point_entity "x" [] [("k", [({[ "HL2" ]}, Sample.V1)])]);
                                         ("W", Sample.point_entity "W" [] [])].
Proof.
  destruct (import_entity_writes_one "EP1" Sample.fs_unsorted
              (Sample.point_entity "X" [] []) _ eq_refl) as [Hothers Hfile].
  destruct (Hfile _ eq_refl) as (new_fgd & Hnew & Hrest).
  eexists _, new_fgd. split; [reflexivity|]. split; [|split; [exact Hnew | exact Hrest]].
  apply Hothers. discriminate.
Defined.

(** X15. The import of a classname whose file does not exist creates the
    file with that one entity; its description, bases, keyvalues, inputs
    and outputs are those of the fragment, so the alternatives keep the tag
    sets of the fragment and do not get the engine tag. *)
Theorem import_entity_new_file E fs new_ent :
  fs !! ent_path new_ent = None →
  ∃ ent, import_entity E fs new_ent
         = Ok (<[ent_path new_ent := [(classname new_ent, ent)]]> fs)
       ∧ ent = with_helpers (helpers ent) new_ent.
Proof.
  intros Hfile. unfold import_entity. rewrite Hfile.
  exists (mark_engine E new_ent). split; [done | apply mark_engine_fields].
Qed.

Lemma import_entity_new_file_witness :
  ∃ ent, import_entity "EP1" Sample.fs0 (Sample.point_entity "B" [] [("k", [(∅, Sample.V1)])])
         = Ok (<["point//B.fgd" := [("B", ent)]]> Sample.fs0)
       ∧ ent = with_helpers (helpers ent) (Sample.point_entity "B" [] [("k", [(∅, Sample.V1)])]).
Proof.
  exact (import_entity_new_file "EP1" Sample.fs0
           (Sample.point_entity "B" [] [("k", [(∅, Sample.V1)])]) eq_refl).
Defined.

(** X16. After the import of an entity has returned, its file lists,
    under its classname (compared without regard to case), an entity that
    has exactly one [AppliesTo] helper with the engine tag among its
    arguments; in a file that lists no classname twice this is the entity
    that a lookup of the classname returns. *)
Theorem import_entity_marks_engine E fs new_ent fs' :
  import_entity E fs new_ent = Ok fs' →
  ∃ new_fgd c ent args,
    fs' !! ent_path new_ent = Some new_fgd
    ∧ (c, ent) ∈ new_fgd
    ∧ casefold c = casefold (classname new_ent)
    ∧ (NoDup (casefold <$> new_fgd.*1) →
       fgd_getitem (classname new_ent) new_fgd = Some ent)
    ∧ filter (λ h, is_applies_to h = true) (helpers ent) = [(EXT_APPLIES_TO, args)]
    ∧ E ∈ args.
Proof.
  assert (Hmarked : ∀ ent, ∃ args,
            filter (λ h, is_applies_to h = true) (helpers (mark_engine E ent))
            = [(EXT_APPLIES_TO, args)] ∧ E ∈ args).
  { intros ent. eexists. split; [apply mark_engine_applies_to|].
    destruct (decide _); [done|]. apply elem_of_app. right.
    by apply list_elem_of_singleton. }
  unfold import_entity. intros Himport.
  destruct (fs !! ent_path new_ent) as [old_fgd|] eqn:Hfile.
  - destruct (fgd_getitem (classname new_ent) old_fgd) as [ent|] eqn:Hent; [|done].
    injection Himport as <-.
    destruct (Hmarked (merge_entity E ent new_ent)) as (args & Hargs & HE).
    destruct (fgd_update_found (classname new_ent)
                (mark_engine E (merge_entity E ent new_ent)) old_fgd)
      as (c & Hin & Hc); [by rewrite Hent|].
    assert (Hsorted : (c, mark_engine E (merge_entity E ent new_ent))
                      ∈ sorted_ents (fgd_update (classname new_ent)
                                       (mark_engine E (merge_entity E ent new_ent)) old_fgd))
      by (by rewrite sorted_ents_perm).
    eexists _, c, _, args. split; [apply lookup_insert_eq|].
    split; [exact Hsorted|]. split; [exact Hc|]. split; [|done].
    intros Hnodup. by apply (fgd_getitem_unique _ _ c).
  - injection Himport as <-.
    destruct (Hmarked new_ent) as (args & Hargs & HE).
    eexists _, (classname new_ent), _, args. split; [apply lookup_insert_eq|].
    split; [apply list_elem_of_here|]. split; [done|]. split; [|done].
    intros _. simpl. by rewrite decide_True.
Qed.

Lemma import_entity_marks_engine_witness :
  ∃ fs' new_fgd c ent args,
    import_entity "EP1" Sample.fs_unsorted (Sample.point_entity "X" [] []) = Ok fs'
    ∧ fs' !! "point//X.fgd" = Some new_fgd
    ∧ (c, ent) ∈ new_fgd
    ∧ casefold c = "x"
    ∧ (NoDup (casefold <$> new_fgd.*1) → fgd_getitem "X" new_fgd = Some ent)
    ∧ filter (λ h, is_applies_to h = true) (helpers ent) = [(EXT_APPLIES_TO, args)]
    ∧ "EP1" ∈ args.
Proof.
  destruct (import_entity_marks_engine "EP1" Sample.fs_unsorted
              (Sample.point_entity "X" [] []) _ eq_refl)
    as (new_fgd & c & ent & args & H).
  eexists _, new_fgd, c, ent, args. split; [reflexivity | exact H].
Defined.

End ImportMore.

Section CategoryMore.

Implicit Types (ent new_ent : EntityDef Value).
Implicit Types (cur_map new_map : Dict string (Dict TagSet Value)).
Implicit Types (tag_map : Dict TagSet Value).

Lemma elem_of_set_item_keys {K A} `{EqDecision K} (k x : K) (v : A) (d : Dict K A) :
  x ∈ (PyDict.set_item k v d).*1 ↔ x = k ∨ x ∈ d.*1.
Proof.
  induction d as [|[k' v'] d IH]; simpl.
  - rewrite list_elem_of_singleton, elem_of_nil. tauto.
  - destruct (decide (k = k')) as [->|Hne].
    + change ((k', v) :: d).*1 with (k' :: d.*1). rewrite !elem_of_cons. tauto.
    + change ((k', v') :: PyDict.set_item k v d).*1
        with (k' :: (PyDict.set_item k v d).*1).
      rewrite !elem_of_cons, IH. tauto.
Qed.

Lemma elem_of_comprehension_keys {K A} `{EqDecision K} (x : K) (items : Dict K A) :
  x ∈ (PyDict.comprehension items).*1 ↔ x ∈ items.*1.
Proof.
  unfold PyDict.comprehension.
  assert (Hfold : ∀ d : Dict K A,
            x ∈ (foldl (λ d kv, PyDict.set_item kv.1 kv.2 d) d items).*1
            ↔ x ∈ d.*1 ∨ x ∈ items.*1).
  { induction items as [|[k v] items IH]; intros d; simpl.
    - rewrite elem_of_nil. tauto.
    - rewrite IH, elem_of_set_item_keys, elem_of_cons. tauto. }
  rewrite Hfold. simpl. rewrite elem_of_nil. tauto.
Qed.

Lemma negate_removed_keys E (names : list string) cur_map :
  (negate_removed E names cur_map).*1 = cur_map.*1.
Proof.
  unfold negate_removed. induction cur_map as [|kv cur_map IH]; [done|].
  rewrite !fmap_cons, IH. by destruct (decide _).
Qed.

Lemma merge_name_keys E cur_map item x :
  x ∈ (merge_name E cur_map item).*1 ↔ x = item.1 ∨ x ∈ cur_map.*1.
Proof.
  destruct item as [name tag_map]. unfold merge_name.
  destruct (PyDict.get name cur_map); apply elem_of_set_item_keys.
Qed.

Lemma set_item_keys_prefix {K A} `{EqDecision K} (k : K) (v : A) (d : Dict K A) :
  ∃ one, (PyDict.set_item k v d).*1 = d.*1 ++ one.
Proof.
  induction d as [|[k' v'] d [one IH]]; simpl.
  - by exists [k].
  - destruct (decide (k = k')) as [->|Hne].
    + exists []. by rewrite app_nil_r.
    + exists one.
      change ((k', v') :: PyDict.set_item k v d).*1
        with (k' :: (PyDict.set_item k v d).*1).
      by rewrite IH.
Qed.

Lemma merge_name_keys_prefix E cur_map item :
  ∃ one, (merge_name E cur_map item).*1 = cur_map.*1 ++ one.
Proof.
  destruct item as [name tag_map]. unfold merge_name.
  destruct (PyDict.get name cur_map); apply set_item_keys_prefix.
Qed.

(** X17. The merge of a category never deletes a key: the names of the
    result are the names of the old entity together with the names of the
    fragment, and the old names keep their places. *)
Theorem merge_category_names E cur_map new_map :
  (∀ name, name ∈ (merge_category E cur_map new_map).*1
           ↔ name ∈ cur_map.*1 ∨ name ∈ new_map.*1)
  ∧ ∃ added, (merge_category E cur_map new_map).*1 = cur_map.*1 ++ added.
Proof.
  unfold merge_category. rewrite negate_removed_keys. split.
  - revert cur_map. induction new_map as [|item new_map IH]; intros cur_map name.
    + simpl. rewrite elem_of_nil. tauto.
    + simpl. rewrite IH, merge_name_keys, elem_of_cons. tauto.
  - revert cur_map. induction new_map as [|item new_map IH]; intros cur_map.
    + exists []. by rewrite app_nil_r.
    + change (foldl (merge_name E) cur_map (item :: new_map))
        with (foldl (merge_name E) (merge_name E cur_map item) new_map).
      destruct (IH (merge_name E cur_map item)) as [added ->].
      destruct (merge_name_keys_prefix E cur_map item) as [one ->].
      exists (one ++ added). by rewrite app_assoc.
Qed.

(** X18. A key of the old entity that the fragment lacks is kept, and
    every tag set it is stored under afterwards holds the negated engine tag
    ['!' + engine_tag] and not the bare [engine_tag]. *)
Theorem merge_entity_absent_key E ent new_ent name tag_map :
  PyDict.get name (keyvalues ent) = Some tag_map →
  name ∉ (keyvalues new_ent).*1 →
  ∃ narrowed,
    PyDict.get name (keyvalues (merge_entity E ent new_ent)) = Some narrowed
    ∧ (∀ tags, tags ∈ narrowed.*1 ↔ ∃ old, old ∈ tag_map.*1 ∧ tags = add_tag old ("!" +:+ E))
    ∧ ∀ tags, tags ∈ narrowed.*1 → ("!" +:+ E) ∈ tags ∧ E ∉ tags.
Proof.
  intros Hget Hname. exists (retag ("!" +:+ E) tag_map).
  assert (Hkeys : ∀ tags, tags ∈ (retag ("!" +:+ E) tag_map).*1
                          ↔ ∃ old, old ∈ tag_map.*1 ∧ tags = add_tag old ("!" +:+ E)).
  { intros tags. unfold retag. rewrite elem_of_comprehension_keys.
    rewrite <- list_fmap_compose. rewrite !list_elem_of_fmap. split.
    - intros ([old v] & -> & Hin). exists old. split; [|done].
      apply list_elem_of_fmap. by exists (old, v).
    - intros (old & ([old' v] & -> & Hin)%list_elem_of_fmap & ->).
      by exists (old', v). }
  split; [by apply merge_category_absent|]. split; [done|].
  intros tags (old & _ & ->)%Hkeys.
  change ("!" +:+ E) with (String "!" E). unfold add_tag. simpl. split.
  - apply elem_of_union_l. by apply elem_of_singleton.
  - intros [HE | HE]%elem_of_union.
    + apply elem_of_singleton in HE. by apply (neg_prefix_ne "!"%char E).
    + apply elem_of_difference in HE as [_ HE]. apply HE. by apply elem_of_singleton.
Qed.

Lemma merge_entity_absent_key_witness :
  ∃ narrowed,
    PyDict.get "k"
      (keyvalues (merge_entity "EP1"
                    (Sample.point_entity "X" [] [("k", [({[ "HL2" ]}, Sample.V1)])])
                    (Sample.point_entity "X" [] []))) = Some narrowed
    ∧ ∀ tags, tags ∈ narrowed.*1 → "!EP1" ∈ tags ∧ "EP1" ∉ tags.
Proof.
  destruct (merge_entity_absent_key "EP1"
              (Sample.point_entity "X" [] [("k", [({[ "HL2" ]}, Sample.V1)])])
              (Sample.point_entity "X" [] []) "k" [({[ "HL2" ]}, Sample.V1)]
              eq_refl (not_elem_of_nil _))
    as (narrowed & Hget & _ & Hneg).
  exists narrowed. split; [exact Hget | exact Hneg].
Defined.

(** X19. Importing an untagged value that equals one of the alternatives a
    key has leaves the alternatives of that key exactly as they were: no
    second alternative is created. *)
Theorem merge_entity_equal_value E ent new_ent name tag_map old v :
  PyDict.get name (keyvalues ent) = Some tag_map →
  old ∈ tag_map → old.2 = v →
  keyvalues new_ent = [(name, [(∅, v)])] →
  PyDict.get name (keyvalues (merge_entity E ent new_ent)) = Some tag_map.
Proof.
  intros Hget Hold Hv Hnew. simpl. rewrite Hnew.
  destruct (List.find (λ old, bool_decide (old.2 = v)) tag_map) as [found|] eqn:Hfind.
  - by eapply merge_category_untagged_equal.
  - apply find_none with (x := old) in Hfind; [|by apply list_elem_of_In].
    by rewrite bool_decide_eq_true_2 in Hfind.
Qed.

Lemma merge_entity_equal_value_witness :
  PyDict.get "k"
    (keyvalues (merge_entity "EP1"
                  (Sample.point_entity "X" [] [("k", [({[ "HL2" ]}, Sample.V1)])])
                  (Sample.point_entity "X" [] [("k", [(∅, Sample.V1)])])))
  = Some [({[ "HL2" ]}, Sample.V1)].
Proof.
  apply (merge_entity_equal_value "EP1" _ _ "k" _ ({[ "HL2" ]}, Sample.V1) Sample.V1);
    [reflexivity | apply list_elem_of_here | reflexivity | reflexivity].
Defined.

Lemma foldl_merge_name_app E cur_map pre post :
  foldl (merge_name E) cur_map (pre ++ post)
  = foldl (merge_name E) (foldl (merge_name E) cur_map pre) post.
Proof. apply foldl_app. Qed.

(** X20. A key of the fragment that the old entity does not have is
    added with every one of its tag sets toggled by the engine tag; an
    untagged value is stored under the tag set of the engine tag alone. *)
Theorem merge_category_new_key E cur_map new_map name tag_map :
  NoDup new_map.*1 →
  (name, tag_map) ∈ new_map →
  PyDict.get name cur_map = None →
  PyDict.get name (merge_category E cur_map new_map) = Some (retag E tag_map)
  ∧ ∀ v, tag_map = [(∅, v)] → retag E tag_map = [(add_tag ∅ E, v)].
Proof.
  intros Hnd Hin Hget. split; [|by intros v ->].
  apply list_elem_of_split in Hin as (pre & post & ->).
  rewrite fmap_app, fmap_cons in Hnd. simpl in Hnd.
  apply NoDup_app in Hnd as (_ & Hpre & Hpost).
  apply NoDup_cons in Hpost as [Hpost _].
  assert (Hname_pre : name ∉ pre.*1).
  { intros Hname. apply (Hpre name Hname). by left. }
  unfold merge_category, negate_removed.
  rewrite get_fmap_values by (intros kv; by destruct (decide _)).
  rewrite foldl_merge_name_app. simpl.
  rewrite merge_names_other by done.
  unfold merge_name at 2.
  rewrite merge_names_other, Hget by done.
  rewrite get_set_item_eq. simpl.
  rewrite decide_True; [done|].
  rewrite fmap_app, fmap_cons. apply elem_of_app. right. by left.
Qed.

Lemma merge_category_new_key_witness :
  PyDict.get "j" (merge_category "EP1" [("k", [({[ "HL2" ]}, Sample.V1)])]
                    [("j", [(∅, Sample.V2)])])
  = Some [(add_tag ∅ "EP1", Sample.V2)].
Proof.
  destruct (merge_category_new_key "EP1" [("k", [({[ "HL2" ]}, Sample.V1)])]
              [("j", [(∅, Sample.V2)])] "j" [(∅, Sample.V2)]
              (NoDup_singleton _) (list_elem_of_here _ _) eq_refl) as [Hget Huntagged].
  rewrite Hget. by rewrite (Huntagged Sample.V2).
Defined.

(** X21. Importing an untagged value that equals none of the alternatives
    of a key stores it under the tag set of the engine tag alone, replacing
    what was stored under that tag set; the alternatives under every other
    tag set stay as they were. *)
Theorem merge_entity_new_value E ent new_ent name tag_map v :
  PyDict.get name (keyvalues ent) = Some tag_map →
  (∀ old, old ∈ tag_map → old.2 ≠ v) →
  keyvalues new_ent = [(name, [(∅, v)])] →
  ∃ merged,
    PyDict.get name (keyvalues (merge_entity E ent new_ent)) = Some merged
    ∧ PyDict.get (add_tag ∅ E) merged = Some v
    ∧ ∀ tags, tags ≠ add_tag ∅ E → PyDict.get tags merged = PyDict.get tags tag_map.
Proof.
  intros Hget Hnone Hnew. exists (PyDict.set_item (add_tag ∅ E) v tag_map).
  split; [|split; [apply get_set_item_eq | intros tags Htags; by apply get_set_item_ne]].
  simpl. rewrite Hnew. unfold merge_category, negate_removed.
  rewrite get_fmap_values by (intros kv; by destruct (decide _)).
  change (foldl (merge_name E) (keyvalues ent) [(name, [(∅, v)])])
    with (merge_name E (keyvalues ent) (name, [(∅, v)])).
  unfold merge_name. rewrite Hget.
  change (foldl (merge_alternative E) tag_map [(∅, v)])
    with (merge_alternative E tag_map (∅, v)).
  rewrite merge_alternative_new.
  - rewrite get_set_item_eq. cbn [fmap option_fmap option_map fst snd].
    rewrite decide_True; [done | apply list_elem_of_here].
  - destruct (List.find _ tag_map) as [found|] eqn:Hfind; [|done].
    apply find_some in Hfind as [Hin Hv%bool_decide_eq_true].
    by apply list_elem_of_In, Hnone in Hin.
Qed.

Lemma merge_entity_new_value_witness :
  ∃ merged,
    PyDict.get "k"
      (keyvalues (merge_entity "EP2"
                    (Sample.point_entity "X" [] [("k", [({[ "HL2" ]}, Sample.V1)])])
                    (Sample.point_entity "X" [] [("k", [(∅, Sample.V2)])]))) = Some merged
    ∧ PyDict.get (add_tag ∅ "EP2") merged = Some Sample.V2
    ∧ ∀ tags, tags ≠ add_tag ∅ "EP2" →
        PyDict.get tags merged = PyDict.get tags [({[ "HL2" ]}, Sample.V1)].
Proof.
  apply (merge_entity_new_value "EP2" _ _ "k" [({[ "HL2" ]}, Sample.V1)] Sample.V2).
  - reflexivity.
  - intros old ->%list_elem_of_singleton. discriminate.
  - reflexivity.
Defined.

End CategoryMore.

(** * Further properties of the engine-mode export *)

Section EngineExportMore.

Variable int_parses : string → bool.
Variable collapse_bases : FGD nat → FGD nat.

Implicit Types (st : ExportState) (tag_map : Dict TagSet nat) (value : nat).

(** [stable st st']: a description that is empty in [st] is empty in
    [st']. *)
Definition stable (st st' : ExportState) : Prop :=
  ∀ ref, value_desc (objects st ref) = "" → value_desc (objects st' ref) = "".

Lemma stable_refl st : stable st st.
Proof. by intros ref. Qed.

Lemma stable_trans st1 st2 st3 : stable st1 st2 → stable st2 st3 → stable st1 st3.
Proof. intros H12 H23 ref Href. by apply H23, H12. Qed.

Lemma mapM_deref (refs : list nat) st :
  mapM deref refs st = Ok (objects st <$> refs, st).
Proof.
  induction refs as [|ref refs IH]; [done|].
  simpl. unfold mbind at 1, M_bind at 1. unfold deref at 1.
  unfold mbind at 1, M_bind at 1. by rewrite IH.
Qed.

(** The first of the elements with the least key is at the head of the
    stable sort. *)
Lemma sorted_by_key_head {A} (key : A → nat) (l : list A) :
  l ≠ [] →
  ∃ pre x post rest,
    l = pre ++ x :: post
    ∧ sorted_by_key key l = x :: rest
    ∧ (∀ y, y ∈ pre → (key x < key y)%nat)
    ∧ (∀ y, y ∈ post → (key x ≤ key y)%nat).
Proof.
  induction l as [|a l IH]; [done|]. intros _.
  destruct l as [|b l].
  { exists [], a, [], []. repeat split; by intros y ?%elem_of_nil. }
  destruct IH as (pre & x & post & rest & Hsplit & Hsorted & Hpre & Hpost); [done|].
  change (sorted_by_key key (a :: b :: l))
    with (insert_by_key key a (sorted_by_key key (b :: l))).
  rewrite Hsorted, Hsplit. simpl.
  destruct (decide (key a ≤ key x)%nat) as [Hle | Hgt].
  - exists [], a, (pre ++ x :: post), (x :: rest). split; [done|]. split; [done|].
    split; [by intros y ?%elem_of_nil|].
    intros y [Hy | [-> | Hy]%elem_of_cons]%elem_of_app.
    + specialize (Hpre y Hy). lia.
    + done.
    + specialize (Hpost y Hy). lia.
  - exists (a :: pre), x, post, (insert_by_key key a rest). split; [done|].
    split; [done|]. split; [|done].
    intros y [-> | Hy]%elem_of_cons; [lia | by apply Hpre].
Qed.

(** X22. A key with exactly one alternative keeps that alternative, under
    whatever tag set it was: when its type is not [CHOICES] the value comes
    out as it was but for its description, which is emptied; nothing is
    printed and no other object changes. *)
Theorem engine_key_single cls key tags value st :
  value_type (objects st value) ≠ CHOICES →
  ∃ st',
    engine_key int_parses cls (key, [(tags, value)]) st = Ok ((key, [(∅, value)]), st')
    ∧ objects st' value = set_desc "" (objects st value)
    ∧ (∀ ref, ref ≠ value → objects st' ref = objects st ref)
    ∧ printed st' = printed st.
Proof.
  intros Htype. eexists. unfold engine_key, select_value. simpl.
  unfold mbind, M_bind, mret, M_ret, convert_choices, deref. simpl.
  unfold mbind, M_bind, mret, M_ret. simpl.
  rewrite decide_False by done. simpl.
  split; [reflexivity|]. simpl. split; [by rewrite decide_True|].
  split; [|done]. intros ref Href. by rewrite decide_False.
Qed.

(** X23. A key whose one alternative is a [KeyValues] of type [CHOICES]
    with a choice list is converted: its type becomes [INT] when every
    choice value parses as an integer and [STRING] otherwise, the choice
    list is dropped, the description emptied, and the diagnostic about
    [CHOICES] is printed. *)
Theorem engine_key_choices cls key tags value st d choices rest :
  objects st value = KeyValues CHOICES d (Some choices) rest →
  ∃ st',
    engine_key int_parses cls (key, [(tags, value)]) st = Ok ((key, [(∅, value)]), st')
    ∧ objects st' value
      = KeyValues (if forallb (λ c : string * string * TagSet, int_parses c.1.1) choices
                   then INT else STRING) "" None rest
    ∧ printed st' = printed st ++ [UsesChoices cls key].
Proof.
  intros Hvalue. eexists. unfold engine_key, select_value. simpl.
  unfold mbind, M_bind, mret, M_ret, convert_choices, deref. simpl.
  unfold mbind, M_bind, mret, M_ret. simpl.
  rewrite Hvalue. simpl.
  split; [reflexivity|]. simpl. split; [|done].
  by destruct (decide (value = value)).
Qed.

(** X24. With several alternatives and none tagged exactly [{ENGINE}],
    the alternative chosen is the first of those with the fewest tags; the
    choice changes no object. *)
Theorem select_value_fewest_tags cls key tag_map st :
  (1 < length tag_map)%nat →
  PyDict.get {[ "ENGINE" ]} tag_map = None →
  ∃ pre tags value post st',
    tag_map = pre ++ (tags, value) :: post
    ∧ select_value cls key tag_map st = Ok (value, st')
    ∧ objects st' = objects st
    ∧ (∀ alt, alt ∈ pre → (size tags < size alt.1)%nat)
    ∧ (∀ alt, alt ∈ post → (size tags ≤ size alt.1)%nat).
Proof.
  intros Hlen Hengine.
  destruct (sorted_by_key_head (λ t : TagSet * nat, size t.1) tag_map)
    as (pre & [tags value] & post & rest & Hsplit & Hsorted & Hpre & Hpost).
  { intros ->. simpl in Hlen. lia. }
  exists pre, tags, value, post. unfold select_value.
  rewrite decide_False by lia. rewrite Hengine.
  unfold mbind at 1, M_bind at 1. rewrite mapM_deref.
  rewrite Hsorted.
  destruct (decide (2 < length (remove_dups (value_type <$> (objects st <$> tag_map.*2))))%nat);
    (eexists; split; [done|]; split; [reflexivity|]; split; [done|]; by split).
Qed.

End EngineExportMore.

Lemma engine_key_single_witness :
  ∃ st',
    engine_key Sample.all_digits "logic_a" ("count", [({[ "P2" ]}, 1)]) Sample.engine_state
    = Ok (("count", [(∅, 1)]), st')
    ∧ objects st' 1 = KeyValues INT "" None "Count".
Proof.
  destruct (engine_key_single Sample.all_digits "logic_a" "count" {[ "P2" ]} 1
              Sample.engine_state) as (st' & Hkey & Hvalue & _).
  - simpl. discriminate.
  - exists st'. split; [exact Hkey | exact Hvalue].
Defined.

Lemma engine_key_choices_witness :
  ∃ st',
    engine_key Sample.all_digits "logic_a" ("mode", [({[ "P2" ]}, 0)]) Sample.engine_state
    = Ok (("mode", [(∅, 0)]), st')
    ∧ objects st' 0 = KeyValues INT "" None "Mode"
    ∧ printed st' = [UsesChoices "logic_a" "mode"].
Proof.
  exact (engine_key_choices Sample.all_digits "logic_a" "mode" {[ "P2" ]} 0
           Sample.engine_state _ _ _ eq_refl).
Defined.

Lemma select_value_fewest_tags_witness :
  ∃ st', select_value "logic_a" "mode"
           [({[ "P2"; "CSGO" ]}, 1); ({[ "TF2" ]}, 0); ({[ "ASW" ]}, 2)] Sample.engine_state
         = Ok (0, st').
Proof.
  destruct (select_value_fewest_tags "logic_a" "mode"
              [({[ "P2"; "CSGO" ]}, 1); ({[ "TF2" ]}, 0); ({[ "ASW" ]}, 2)]
              Sample.engine_state) as (pre & tags & value & post & st' & _ & Hsel & _).
  - simpl. lia.
  - reflexivity.
  - exists st'. rewrite Hsel. vm_compute in Hsel. injection Hsel as <- _. reflexivity.
Defined.

Section EngineExportPostcondition.

Variable int_parses : string → bool.
Variable collapse_bases : FGD nat → FGD nat.

Implicit Types (st : ExportState) (tag_map : Dict TagSet nat) (value : nat).

Lemma select_value_objects cls key tag_map st value st' :
  select_value cls key tag_map st = Ok (value, st') → objects st' = objects st.
Proof.
  unfold select_value. destruct (decide (length tag_map = 1)).
  - destruct tag_map as [|[tags v] tag_map]; [done|]. by intros [= _ <-].
  - destruct (PyDict.get {[ "ENGINE" ]} tag_map) as [v|].
    + unfold mbind, M_bind, deref. destruct (decide _); [done|]. by intros [= _ <-].
    + unfold mbind at 1, M_bind at 1. rewrite mapM_deref.
      unfold mbind, M_bind.
      destruct (decide _); simpl;
        destruct (sorted_by_key _ tag_map) as [|[tags v] rest]; try done;
        by intros [= _ <-].
Qed.

Lemma convert_choices_stable cls key value st st' :
  convert_choices int_parses cls key value st = Ok ((), st') → stable st st'.
Proof.
  unfold convert_choices, mbind, M_bind, deref.
  destruct (decide (value_type (objects st value) = CHOICES)) as [Htype|];
    [|intros [= <-]; apply stable_refl].
  simpl. destruct (objects st value) as [t d [choices|] rest | t d rest] eqn:Hvalue;
    try done.
  - intros [= <-] ref Href. simpl. destruct (decide (ref = value)) as [->|]; [|done].
    rewrite Hvalue in Href. done.
  - intros [= <-] ref Href. done.
Qed.

Lemma value_desc_set_desc d v : value_desc (set_desc d v) = d.
Proof. by destruct v. Qed.

(** What one round of the loop over a category leaves. *)
Definition resolved (item item' : string * Dict TagSet nat) (st : ExportState) : Prop :=
  ∃ value, item' = (item.1, [(∅, value)]) ∧ value_desc (objects st value) = "".

Lemma resolved_stable item item' st st' :
  resolved item item' st → stable st st' → resolved item item' st'.
Proof. intros (value & -> & Hdesc) Hstable. exists value. split; [done | by apply Hstable]. Qed.

Lemma engine_key_post cls item st item' st' :
  engine_key int_parses cls item st = Ok (item', st') →
  resolved item item' st' ∧ stable st st'.
Proof.
  destruct item as [key tag_map]. unfold engine_key.
  unfold mbind at 1, M_bind at 1.
  destruct (select_value cls key tag_map st) as [[value st1]|] eqn:Hsel; [|done].
  apply select_value_objects in Hsel.
  unfold mbind at 1, M_bind at 1.
  destruct (convert_choices int_parses cls key value st1) as [[[] st2]|] eqn:Hconv; [|done].
  apply convert_choices_stable in Hconv.
  unfold mbind, M_bind, deref, assign. intros [= <- <-]. split.
  - exists value. split; [done|]. simpl. rewrite decide_True by done.
    apply value_desc_set_desc.
  - intros ref Href. simpl. destruct (decide (ref = value)); [apply value_desc_set_desc|].
    apply Hconv. unfold stable in *. by rewrite Hsel.
Qed.

Lemma mapM_post {A B} (f : A → M B) (R : A → B → ExportState → Prop) :
  (∀ x st y st', f x st = Ok (y, st') → R x y st' ∧ stable st st') →
  (∀ x y st st', R x y st → stable st st' → R x y st') →
  ∀ l st l' st', mapM f l st = Ok (l', st') →
    Forall2 (λ x y, R x y st') l l' ∧ stable st st'.
Proof.
  intros Hf HR. induction l as [|x l IH]; intros st l' st'.
  - intros [= <- <-]. split; [constructor | apply stable_refl].
  - simpl. unfold mbind at 1, M_bind at 1.
    destruct (f x st) as [[y st1]|] eqn:Hx; [|done].
    unfold mbind at 1, M_bind at 1.
    destruct (mapM f l st1) as [[ys st2]|] eqn:Hl; [|done].
    intros [= <- <-]. destruct (Hf _ _ _ _ Hx) as [Hy H01].
    destruct (IH _ _ _ Hl) as [Hys H12]. split.
    + constructor; [by eapply HR | done].
    + by eapply stable_trans.
Qed.

Definition category_resolved (category category' : Dict string (Dict TagSet nat))
    (st : ExportState) : Prop :=
  Forall2 (λ item item', resolved item item' st) category category'.

Lemma category_resolved_stable category category' st st' :
  category_resolved category category' st → stable st st' →
  category_resolved category category' st'.
Proof.
  intros Hres Hstable. eapply Forall2_impl; [exact Hres|].
  intros item item' Hitem. exact (resolved_stable _ _ _ _ Hitem Hstable).
Qed.

(** What the loop over the entities leaves of one entity. *)
Definition entity_resolved (ent ent' : EntityDef nat) (st : ExportState) : Prop :=
  classname ent' = classname ent ∧ type ent' = type ent
  ∧ helpers ent' = filter (λ helper : Helper,
                             helper.1 ≠ EXT_APPLIES_TO ∧ helper.1 ≠ EXT_ORDERBY) (helpers ent)
  ∧ category_resolved (keyvalues ent) (keyvalues ent') st
  ∧ category_resolved (inputs ent) (inputs ent') st
  ∧ category_resolved (outputs ent) (outputs ent') st.

Lemma engine_entity_post ent st ent' st' :
  engine_entity int_parses ent st = Ok (ent', st') →
  entity_resolved ent ent' st' ∧ stable st st'.
Proof.
  unfold engine_entity.
  unfold mbind at 1, M_bind at 1.
  destruct (mapM (engine_key int_parses (classname ent)) (inputs ent) st) as [[ins st1]|] eqn:Hins; [|done].
  unfold mbind at 1, M_bind at 1.
  destruct (mapM (engine_key int_parses (classname ent)) (outputs ent) st1) as [[outs st2]|] eqn:Houts; [|done].
  unfold mbind at 1, M_bind at 1.
  destruct (mapM (engine_key int_parses (classname ent)) (keyvalues ent) st2) as [[kvs st3]|] eqn:Hkvs; [|done].
  intros [= <- <-].
  apply (mapM_post _ resolved (engine_key_post _) resolved_stable) in Hins as [Hins H01].
  apply (mapM_post _ resolved (engine_key_post _) resolved_stable) in Houts as [Houts H12].
  apply (mapM_post _ resolved (engine_key_post _) resolved_stable) in Hkvs as [Hkvs H23].
  split; [|by eapply stable_trans; [eapply stable_trans|]].
  repeat split; simpl; [done | ..].
  - eapply category_resolved_stable; [exact Hins|]. by eapply stable_trans.
  - by eapply category_resolved_stable.
Qed.

Lemma category_resolved_shape category category' st :
  category_resolved category category' st →
  category'.*1 = category.*1
  ∧ ∀ item, item ∈ category' →
      ∃ value, item.2 = [(∅, value)] ∧ value_desc (objects st value) = "".
Proof.
  induction 1 as [|item item' category category' (value & -> & Hdesc) Hrest [IHk IHs]].
  - split; [done | by intros item ?%elem_of_nil].
  - split; [by rewrite !fmap_cons, IHk|].
    intros it [-> | Hit]%elem_of_cons; [by exists value | by apply IHs].
Qed.

(** X25. What an engine-mode export that returns has produced, for every
    exported entity: it is no base entity; it stems from an entity of the
    collapsed database, with the same classname and the same key names in
    the same order; it has neither an [AppliesTo] nor an ordering helper;
    and every one of its keys has one alternative, under the empty tag set,
    whose description is empty. *)
Theorem engine_export_postcondition fgd st exported st' :
  action_export_engine int_parses collapse_bases fgd st = Ok (exported, st') →
  ∀ c ent', (c, ent') ∈ exported →
    type ent' ≠ BASE
    ∧ (∀ h, h ∈ helpers ent' → h.1 ≠ EXT_APPLIES_TO ∧ h.1 ≠ EXT_ORDERBY)
    ∧ (∃ ent, (c, ent) ∈ collapse_bases fgd
              ∧ classname ent' = classname ent
              ∧ (keyvalues ent').*1 = (keyvalues ent).*1
              ∧ (inputs ent').*1 = (inputs ent).*1
              ∧ (outputs ent').*1 = (outputs ent).*1)
    ∧ ∀ item, item ∈ keyvalues ent' ++ inputs ent' ++ outputs ent' →
        ∃ value, item.2 = [(∅, value)] ∧ value_desc (objects st' value) = "".
Proof.
  unfold action_export_engine. unfold mbind at 1, M_bind at 1.
  destruct (mapM (engine_item int_parses) (collapse_bases fgd) st) as [[entities st1]|] eqn:Hloop; [|done].
  intros [= <- <-] c ent' [Htype Hin]%list_elem_of_filter.
  apply (mapM_post _ (λ item item' st, item'.1 = item.1
                                        ∧ entity_resolved item.2 item'.2 st)) in Hloop
    as [Hall _].
  - apply list_elem_of_lookup in Hin as [i Hi].
    destruct (Forall2_lookup_r _ _ _ _ _ Hall Hi) as ([c0 ent] & Hent & Hc & Hres).
    simpl in Hc, Hres. subst c0.
    destruct Hres as (Hcls & _ & Hhelpers & Hkvs & Hins & Houts).
    apply category_resolved_shape in Hkvs as [Hkvs_names Hkvs].
    apply category_resolved_shape in Hins as [Hins_names Hins].
    apply category_resolved_shape in Houts as [Houts_names Houts].
    split; [done|]. split; [|split].
    + intros h Hh. rewrite Hhelpers in Hh. by apply list_elem_of_filter in Hh as [? _].
    + exists ent. split; [by eapply list_elem_of_lookup_2 | done].
    + intros item [? | [? | ?]%elem_of_app]%elem_of_app; auto.
  - intros [c0 ent] st0 [c1 ent1] st2. unfold engine_item. simpl.
    unfold mbind, M_bind.
    destruct (engine_entity int_parses ent st0) as [[ent2 st3]|] eqn:Hent; [|done].
    intros [= <- <- <-]. apply engine_entity_post in Hent as [? ?]. by split.
  - intros item item' st0 st2 [Hc (Hcls & Hty & Hhelpers & Hkvs & Hins & Houts)] Hstable.
    split; [done|]. repeat split; try done; by eapply category_resolved_stable.
Qed.

End EngineExportPostcondition.

Lemma engine_export_postcondition_witness :
  ∃ exported st',
    action_export_engine Sample.all_digits id MoreSamples.collapsed Sample.engine_state
    = Ok (exported, st')
    ∧ ∀ c ent', (c, ent') ∈ exported →
        type ent' ≠ BASE
        ∧ ∀ item, item ∈ keyvalues ent' ++ inputs ent' ++ outputs ent' →
            ∃ value, item.2 = [(∅, value)] ∧ value_desc (objects st' value) = "".
Proof.
  eexists _, _. split; [reflexivity|]. intros c ent' Hin.
  destruct (engine_export_postcondition Sample.all_digits id MoreSamples.collapsed
              Sample.engine_state _ _ eq_refl c ent' Hin) as (Hbase & _ & _ & Hitems).
  split; [exact Hbase | exact Hitems].
Defined.

(** * Further properties of the [comp_adv_output] transform *)

Section AdvOutputMore.

Import AdvOutput.

Variable check_control_enabled : Entity → bool.
Variable conv_int : string → Z → Z.
Variable conv_float : string → PrimFloat.float.
Variable vformat : (Z + string → list string → option string) → string → list string → option string.
Variable search : gmap nat Entity → string → list nat.

Implicit Types (adv_out ent : Entity) (ind : nat) (ctx : Context).

(** The value that round [ind] of the parameter loop reads: the positional
    one, else the local one, else the global one. *)
Definition param_value adv_out ind : string :=
  str_or (getitem adv_out ("params_pos" +:+ pretty ind))
    (str_or (getitem adv_out ("params_local" +:+ pretty ind))
       (getitem adv_out ("params_global" +:+ pretty ind))).

Lemma collect_params_result fuel adv_out ind args :
  collect_params fuel adv_out ind = Some args →
  (∀ i val, args !! i = Some val → val = param_value adv_out (ind + i) ∧ val ≠ "")
  ∧ param_value adv_out (ind + length args) = "".
Proof.
  revert ind args. induction fuel as [|fuel IH]; intros ind args; [done|].
  cbn [collect_params]. fold (param_value adv_out ind).
  destruct (decide (param_value adv_out ind = "")) as [Hend | Hval].
  - intros [= <-]. split; [by intros i val ?|]. simpl. by rewrite Nat.add_0_r.
  - destruct (collect_params fuel adv_out (S ind)) as [rest|] eqn:Hrest; [|done].
    intros [= <-]. destruct (IH _ _ Hrest) as [Hvals Hstop]. split.
    + intros [|i] val Hi; simpl in Hi.
      * injection Hi as <-. by rewrite Nat.add_0_r.
      * replace (ind + S i)%nat with (S ind + i)%nat by lia. by apply Hvals.
    + simpl. by replace (ind + S (length rest))%nat with (S ind + length rest)%nat by lia.
Qed.

(** X26. The loop that collects the parameters over [itertools.count(1)]
    ends for every entity. It returns the values of the rounds 1, 2, ... in
    order, each the positional, else the local, else the global value of its
    round and never empty, and it stops at the first round without a
    value. *)
Theorem param_loop_ends adv_out :
  ∃ args,
    collect_params (S (size (keys adv_out))) adv_out 1 = Some args
    ∧ (∀ i val, args !! i = Some val → val = param_value adv_out (S i) ∧ val ≠ "")
    ∧ param_value adv_out (S (length args)) = "".
Proof.
  destruct (collect_params_total (S (size (keys adv_out))) adv_out 1) as [args Hargs]; [lia|].
  exists args. split; [done|]. by apply collect_params_result in Hargs.
Qed.

Lemma add_out_lookup out (found : list nat) (m : gmap nat Entity) eid ent' :
  foldl (λ m found_ent, alter (add_out out) found_ent m) m found !! eid = Some ent' →
  ∃ ent, m !! eid = Some ent ∧ keys ent' = keys ent
         ∧ outputs ent `prefix_of` outputs ent'.
Proof.
  revert m. induction found as [|x found IH]; intros m; simpl.
  - intros Hent. by exists ent'.
  - intros (ent1 & Hent1 & Hkeys & Hprefix)%IH.
    destruct (decide (x = eid)) as [->|Hne].
    + rewrite lookup_alter_eq in Hent1.
      destruct (m !! eid) as [ent|]; [|done]. injection Hent1 as <-.
      exists ent. split; [done|]. split; [done|].
      etrans; [|exact Hprefix]. simpl. by apply prefix_app_r.
    + rewrite lookup_alter_ne in Hent1 by done. by exists ent1.
Qed.

Lemma add_out_dom out (found : list nat) (m : gmap nat Entity) :
  dom (foldl (λ m found_ent, alter (add_out out) found_ent m) m found) = dom m.
Proof.
  revert m. induction found as [|x found IH]; intros m; simpl; [done|].
  by rewrite IH, dom_alter_L.
Qed.

(** What one round does to the map: the entity of the round is gone, no
    other entity is added or removed, no keyvalue changes and outputs are
    only added at the end. *)
Lemma process_map ctx adv_id adv_out ctx' :
  process check_control_enabled conv_int conv_float vformat search ctx (adv_id, adv_out)
  = Some ctx' →
  dom (vmf ctx') = dom (vmf ctx) ∖ {[ adv_id ]}
  ∧ ∀ eid ent', vmf ctx' !! eid = Some ent' →
      ∃ ent, vmf ctx !! eid = Some ent ∧ keys ent' = keys ent
             ∧ outputs ent `prefix_of` outputs ent'.
Proof.
  assert (Hdeleted : ∀ eid ent', delete adv_id (vmf ctx) !! eid = Some ent' →
            ∃ ent, vmf ctx !! eid = Some ent ∧ keys ent' = keys ent
                   ∧ outputs ent `prefix_of` outputs ent').
  { intros eid ent' Hent. apply lookup_delete_Some in Hent as [_ Hent]. by exists ent'. }
  unfold process. destruct (negb (check_control_enabled adv_out)).
  { intros [= <-]. simpl. by rewrite dom_delete_L. }
  cbn [vmf log]. destruct (decide _).
  { intros [= <-]. simpl. by rewrite dom_delete_L. }
  destruct (clamped_delay conv_float adv_out) as [delay negative].
  destruct (collect_params _ adv_out 1) as [param_args|]; [|done]. simpl.
  destruct (if decide (getitem adv_out "params_fmt" = "")
            then Some (getitem adv_out "params_fmt")
            else vformat get_value (getitem adv_out "params_fmt") param_args)
    as [parameter|].
  - intros [= <-]. simpl. rewrite add_out_dom, dom_delete_L. split; [done|].
    intros eid ent' (ent1 & Hent1 & Hkeys & Hprefix)%add_out_lookup.
    destruct (Hdeleted _ _ Hent1) as (ent & Hent & Hkeys1 & Hprefix1).
    exists ent. split; [done|]. split; [congruence | by etrans].
  - intros [= <-]. simpl. by rewrite dom_delete_L.
Qed.

(** X27. One round of the transform takes the [comp_adv_output] entity of
    the round out of the map and no other entity; it adds no entity, changes
    no keyvalue of any entity, and changes outputs only by adding at the
    end. *)
Theorem process_only_adds_outputs ctx adv_id adv_out ctx' :
  process check_control_enabled conv_int conv_float vformat search ctx (adv_id, adv_out)
  = Some ctx' →
  vmf ctx' !! adv_id = None
  ∧ (∀ eid, eid ≠ adv_id → is_Some (vmf ctx' !! eid) ↔ is_Some (vmf ctx !! eid))
  ∧ ∀ eid ent', vmf ctx' !! eid = Some ent' →
      ∃ ent, vmf ctx !! eid = Some ent ∧ keys ent' = keys ent
             ∧ outputs ent `prefix_of` outputs ent'.
Proof.
  intros [Hdom Hents]%process_map. split; [|split; [|done]].
  - apply not_elem_of_dom. rewrite Hdom.
    intros [_ Hin]%elem_of_difference. apply Hin. by apply elem_of_singleton.
  - intros eid Hne. rewrite <- !elem_of_dom, Hdom.
    rewrite elem_of_difference, elem_of_singleton. tauto.
Qed.

(** X28. With control enabled, a target, a delay that is not negative and
    no format string, the output is added as it is configured: every entity
    found gets, as its last output, the output [out_name] to the target
    (with the instance name appended after a dash when there is one) with
    input [inp_name], the empty parameter, the sum of [delay] and [delay2]
    as delay and [times] as count; the only entry the round can add to the
    log is the warning that no entity was found. *)
Theorem process_adds_output ctx adv_id adv_out :
  check_control_enabled adv_out = true →
  str_or (getitem adv_out "target_local") (getitem adv_out "target_global") ≠ "" →
  PrimFloat.ltb (PrimFloat.add (conv_float (getitem adv_out "delay"))
                               (conv_float (getitem adv_out "delay2")))
    PrimFloat.zero = false →
  getitem adv_out "params_fmt" = "" →
  ∃ ctx',
    process check_control_enabled conv_int conv_float vformat search ctx (adv_id, adv_out)
    = Some ctx'
    ∧ (∀ entry, entry ∈ log ctx' →
         entry ∈ log ctx
         ∨ entry = warning_no_entities (getitem adv_out "target") (getitem adv_out "origin"))
    ∧ ∀ found_ent ent,
        found_ent ∈ search (delete adv_id (vmf ctx)) (getitem adv_out "out_ent") →
        delete adv_id (vmf ctx) !! found_ent = Some ent →
        ∃ ent', vmf ctx' !! found_ent = Some ent'
          ∧ last (outputs ent')
            = Some {| output := getitem adv_out "out_name";
                      target :=
                        (let name := str_or (getitem adv_out "target_local")
                                            (getitem adv_out "target_global") in
                         if decide (getitem adv_out "target_instname" = "") then name
                         else name +:+ "-" +:+ getitem adv_out "target_instname");
                      input := getitem adv_out "inp_name";
                      params := "";
                      delay := PrimFloat.add (conv_float (getitem adv_out "delay"))
                                             (conv_float (getitem adv_out "delay2"));
                      times := conv_int (getitem adv_out "times") (-1) |}.
Proof.
  intros Henabled Htarget Hdelay Hfmt. unfold process.
  rewrite Henabled. cbn [negb vmf log]. rewrite decide_False by done.
  unfold clamped_delay. rewrite Hdelay.
  destruct (collect_params_total (S (size (keys adv_out))) adv_out 1)
    as [param_args Hparams]; [lia|].
  rewrite Hparams. simpl. rewrite Hfmt. rewrite decide_True by done.
  eexists. split; [reflexivity|]. simpl. split.
  - intros entry Hentry. destruct (decide _); [|by left].
    apply elem_of_app in Hentry as [? | ->%list_elem_of_singleton]; [by left | by right].
  - intros found_ent ent Hfound Hent.
    edestruct add_out_found as (ent' & Hent' & _ & Hlast); [exact Hfound | exact Hent |].
    exists ent'. split; [exact Hent' | exact Hlast].
Qed.

(** The loop of [advanced_output] over a list of entities. *)
Lemma advanced_output_loop (items : list (nat * Entity)) ctx :
  ∃ ctx',
    foldl (λ acc item,
             acc ≫= λ ctx, process check_control_enabled conv_int conv_float vformat
                             search ctx item) (Some ctx) items = Some ctx'
    ∧ dom (vmf ctx') = dom (vmf ctx) ∖ list_to_set items.*1
    ∧ ∀ eid ent', vmf ctx' !! eid = Some ent' →
        ∃ ent, vmf ctx !! eid = Some ent ∧ keys ent' = keys ent.
Proof.
  revert ctx. induction items as [|[adv_id adv_out] items IH]; intros ctx.
  - exists ctx. split; [done|]. split.
    + simpl. by rewrite difference_empty_L.
    + intros eid ent' Hent. by exists ent'.
  - assert (is_Some (process check_control_enabled conv_int conv_float vformat search
                       ctx (adv_id, adv_out))) as [ctx1 Hctx1].
    { unfold process. destruct (negb _); [eauto|]. cbn [vmf log].
      destruct (decide _); [eauto|].
      destruct (clamped_delay conv_float adv_out) as [delay negative].
      destruct (collect_params_total (S (size (keys adv_out))) adv_out 1)
        as [param_args ->]; [lia|]. simpl.
      destruct (if decide (getitem adv_out "params_fmt" = "")
                then Some (getitem adv_out "params_fmt")
                else vformat get_value (getitem adv_out "params_fmt") param_args);
        eauto. }
    cbn [foldl]. cbn [mbind option_bind]. rewrite Hctx1.
    destruct (IH ctx1) as (ctx' & Hloop & Hdom & Hents).
    apply process_map in Hctx1 as [Hdom1 Hents1].
    exists ctx'. split; [exact Hloop|]. split.
    + rewrite Hdom, Hdom1. apply set_eq. intros x.
      rewrite fmap_cons, list_to_set_cons, !elem_of_difference, elem_of_union,
        !elem_of_singleton. simpl. tauto.
    + intros eid ent' (ent1 & Hent1 & Hkeys)%Hents.
      destruct (Hents1 _ _ Hent1) as (ent & Hent & Hkeys1 & _).
      exists ent. split; [done | congruence].
Qed.

(** X29. The transform returns for every map, and the map it returns
    holds no [comp_adv_output] entity; every entity left was in the map
    before, with the same keyvalues. *)
Theorem advanced_output_removes_all ctx :
  ∃ ctx',
    advanced_output check_control_enabled conv_int conv_float vformat search ctx = Some ctx'
    ∧ ∀ eid ent', vmf ctx' !! eid = Some ent' →
        getitem ent' "classname" ≠ "comp_adv_output"
        ∧ ∃ ent, vmf ctx !! eid = Some ent ∧ keys ent' = keys ent.
Proof.
  unfold advanced_output.
  destruct (advanced_output_loop (by_class "comp_adv_output" (vmf ctx)) ctx)
    as (ctx' & Hloop & Hdom & Hents).
  exists ctx'. split; [exact Hloop|]. intros eid ent' Hent'. split; [|by apply Hents].
  intros Hclass. destruct (Hents _ _ Hent') as (ent & Hent & Hkeys).
  assert (Hin : eid ∈ dom (vmf ctx')) by (apply elem_of_dom; eauto).
  rewrite Hdom in Hin. apply elem_of_difference in Hin as [_ Hin]. apply Hin.
  apply elem_of_list_to_set, list_elem_of_fmap. exists (eid, ent). split; [done|].
  unfold by_class. apply list_elem_of_filter. split.
  - simpl. unfold getitem in *. by rewrite <- Hkeys.
  - by apply elem_of_map_to_list.
Qed.

End AdvOutputMore.

Lemma process_only_adds_outputs_witness :
  ∃ ctx',
    AdvOutput.process (λ _, true) AdvOutput.sample_conv_int AdvOutput.sample_conv_float
      AdvOutput.sample_vformat AdvOutput.sample_search AdvOutput.sample_ctx
      (0, AdvOutput.sample_adv_out) = Some ctx'
    ∧ AdvOutput.vmf ctx' !! 0 = None.
Proof.
  eexists. split; [reflexivity|].
  exact (proj1 (process_only_adds_outputs (λ _, true) AdvOutput.sample_conv_int
                  AdvOutput.sample_conv_float AdvOutput.sample_vformat
                  AdvOutput.sample_search AdvOutput.sample_ctx 0
                  AdvOutput.sample_adv_out _ eq_refl)).
Defined.

Lemma process_adds_output_witness :
  ∃ ctx' ent',
    AdvOutput.process (λ _, true) AdvOutput.sample_conv_int AdvOutput.sample_conv_float
      AdvOutput.sample_vformat AdvOutput.sample_search MoreSamples.ctx_plain
      (0, MoreSamples.adv_out_plain) = Some ctx'
    ∧ AdvOutput.vmf ctx' !! 1 = Some ent'
    ∧ last (AdvOutput.outputs ent')
      = Some {| AdvOutput.output := "OnTrigger"; AdvOutput.target := "door-lift";
                AdvOutput.input := "Open"; AdvOutput.params := "";
                AdvOutput.delay := AdvOutput.sample_conv_float "3"; AdvOutput.times := 1 |}.
Proof.
  destruct (process_adds_output (λ _, true) AdvOutput.sample_conv_int
              AdvOutput.sample_conv_float AdvOutput.sample_vformat
              AdvOutput.sample_search MoreSamples.ctx_plain 0 MoreSamples.adv_out_plain)
    as (ctx' & Hctx' & _ & Hadded).
  - reflexivity.
  - vm_compute. discriminate.
  - vm_compute. reflexivity.
  - reflexivity.
  - destruct (Hadded 1 AdvOutput.sample_relay) as (ent' & Hent' & Hlast).
    + vm_compute. apply list_elem_of_here.
    + vm_compute. reflexivity.
    + exists ctx', ent'. split; [exact Hctx'|]. split; [exact Hent'|].
      rewrite Hlast. vm_compute. reflexivity.
Defined.
